(** * Car_Managment: the car routes and the authentication middleware

    A shallow embedding of [routes/carRoutes.js] and [middleware/auth.js]:
    the request handlers become functions over an explicit world (the two
    document collections and a chronological log of the calls that leave
    the process), the promises they await become computations that either
    resolve or reject, and the [try]/[catch] of each handler becomes
    [try_catch]. *)

From Stdlib Require Import Ascii NArith.
From stdpp Require Import gmap strings list.

(** ** JavaScript strings

    A JavaScript string is modelled by a Rocq [string] holding its UTF-8
    bytes. *)

Module JsString.

(** [s.split(sep)] for a one-character separator: never empty. *)
Fixpoint split (sep : ascii) (s : string) : list string :=
  match s with
  | EmptyString => [EmptyString]
  | String c rest =>
      if Ascii.eqb c sep then EmptyString :: split sep rest
      else match split sep rest with
           | [] => [String c EmptyString]
           | seg :: segs => String c seg :: segs
           end
  end.

(** [a.pop()] as a value: the last element, [undefined] on [[]]. *)
Definition pop (a : list string) : option string := last a.

(** [a[0]]: the first element, [undefined] on [[]]. *)
Definition index0 (a : list string) : option string := head a.

(** How a template literal renders a value that may be [undefined]. *)
Definition template (v : option string) : string :=
  match v with
  | Some s => s
  | None => "undefined"
  end.

Fixpoint drop (n : nat) (s : string) : string :=
  match n, s with
  | S n', String _ rest => drop n' rest
  | _, _ => s
  end.

(** [s.replace(pat, rep)] for a string pattern: the first occurrence of
    [pat], scanning from the left, is replaced; without an occurrence
    [s] is returned as it is. *)
Fixpoint replace (pat rep s : string) : string :=
  if String.prefix pat s then rep +:+ drop (String.length pat) s
  else match s with
       | EmptyString => EmptyString
       | String c rest => String c (replace pat rep rest)
       end.

(** [v || d] on strings. *)
Definition or_else (v : option string) (d : string) : string :=
  match v with
  | Some (String c rest) => String c rest
  | _ => d
  end.

Definition contains (c : ascii) (s : string) : bool :=
  existsb (Ascii.eqb c) (String.list_ascii_of_string s).

End JsString.

(** ** The remote asset identifier of an image URL (carRoutes.js, 91-92) *)

(** [imageUrl.split('/').pop().split('.')[0]]; [None] is the [TypeError]
    of calling [split] on [undefined]. *)
Definition publicId (imageUrl : string) : option (option string) :=
  match JsString.pop (JsString.split "/" imageUrl) with
  | None => None
  | Some seg => Some (JsString.index0 (JsString.split "." seg))
  end.

(** [`cars/${publicId}`] *)
Definition destroy_target (publicId : option string) : string :=
  "cars/" +:+ JsString.template publicId.

(** ** JSON values and [JSON.parse]

    The handlers use two built-ins of the language on the caller's
    [existingImages] text: [JSON.parse] and the array spread.  Both are
    written out here so that requests can be run on concrete texts. *)

#[warnings="-register-all"]
Inductive JSValue :=
| JNull
| JBool (b : bool)
| JNum (literal : string)   (* the number, kept as its source text *)
| JStr (s : string)
| JArr (elems : list JSValue)
| JObj (members : list (string * JSValue)).

Module JSON.

Definition dquote : ascii := ascii_of_nat 34.
Definition backslash : ascii := ascii_of_nat 92.

(** A string literal of JSON text: [quoted "a"] is the three characters
    of the text of the JSON string a. *)
Definition quoted (s : string) : string :=
  String dquote (s +:+ String dquote EmptyString).

Definition is_ws (c : ascii) : bool :=
  let n := N_of_ascii c in
  ((n =? 32) || (n =? 9) || (n =? 10) || (n =? 13))%N.

Fixpoint skip_ws (s : string) : string :=
  match s with
  | String c rest => if is_ws c then skip_ws rest else s
  | EmptyString => EmptyString
  end.

Definition is_digit (c : ascii) : bool :=
  let n := N_of_ascii c in ((48 <=? n) && (n <=? 57))%N.

Fixpoint span_digits (s : string) : string * string :=
  match s with
  | String c rest =>
      if is_digit c
      then let '(ds, r) := span_digits rest in (String c ds, r)
      else (EmptyString, s)
  | EmptyString => (EmptyString, EmptyString)
  end.

(** [strip p s]: [s] without its prefix [p], if it starts with [p]. *)
Fixpoint strip (p s : string) : option string :=
  match p, s with
  | EmptyString, _ => Some s
  | String a p', String b s' => if Ascii.eqb a b then strip p' s' else None
  | String _ _, EmptyString => None
  end.

(** number = [-] int [frac] [exp] *)
Definition parse_int (s : string) : option (string * string) :=
  match s with
  | String c rest =>
      if Ascii.eqb c "0" then Some ("0", rest)
      else if is_digit c
           then let '(ds, r) := span_digits rest in Some (String c ds, r)
           else None
  | EmptyString => None
  end.

Definition parse_frac (s : string) : option (string * string) :=
  match s with
  | String c rest =>
      if Ascii.eqb c "."
      then match span_digits rest with
           | (EmptyString, _) => None
           | (ds, r) => Some (String c ds, r)
           end
      else Some (EmptyString, s)
  | EmptyString => Some (EmptyString, s)
  end.

Definition parse_exp (s : string) : option (string * string) :=
  match s with
  | String c rest =>
      if Ascii.eqb c "e" || Ascii.eqb c "E"
      then let '(sign, r0) :=
             match rest with
             | String g r =>
                 if Ascii.eqb g "+" || Ascii.eqb g "-"
                 then (String g EmptyString, r) else (EmptyString, rest)
             | EmptyString => (EmptyString, rest)
             end in
           match span_digits r0 with
           | (EmptyString, _) => None
           | (ds, r) => Some (String c (sign +:+ ds), r)
           end
      else Some (EmptyString, s)
  | EmptyString => Some (EmptyString, s)
  end.

Definition parse_number (s : string) : option (string * string) :=
  let '(sign, s0) :=
    match s with
    | String c rest =>
        if Ascii.eqb c "-" then (String c EmptyString, rest)
        else (EmptyString, s)
    | EmptyString => (EmptyString, s)
    end in
  '(i, s1) ← parse_int s0;
  '(f, s2) ← parse_frac s1;
  '(e, s3) ← parse_exp s2;
  Some (sign +:+ i +:+ f +:+ e, s3).

Definition hex_val (c : ascii) : option N :=
  let n := N_of_ascii c in
  if ((48 <=? n) && (n <=? 57))%N then Some (n - 48)%N
  else if ((65 <=? n) && (n <=? 70))%N then Some (n - 55)%N
  else if ((97 <=? n) && (n <=? 102))%N then Some (n - 87)%N
  else None.

Definition hex4 (a b c d : ascii) : option N :=
  x ← hex_val a; y ← hex_val b; z ← hex_val c; w ← hex_val d;
  Some (((x * 16 + y) * 16 + z) * 16 + w)%N.

Definition byte (n : N) : string := String (ascii_of_N n) EmptyString.

(** The UTF-8 bytes of a code point (a lone surrogate is written the
    same way, on three bytes). *)
Definition utf8 (cp : N) : string :=
  if (cp <? 128)%N then byte cp
  else if (cp <? 2048)%N
  then byte (192 + cp / 64) +:+ byte (128 + cp mod 64)
  else if (cp <? 65536)%N
  then byte (224 + cp / 4096) +:+ byte (128 + (cp / 64) mod 64)
       +:+ byte (128 + cp mod 64)
  else byte (240 + cp / 262144) +:+ byte (128 + (cp / 4096) mod 64)
       +:+ byte (128 + (cp / 64) mod 64) +:+ byte (128 + cp mod 64).

Definition is_high (u : N) : bool := ((55296 <=? u) && (u <=? 56319))%N.
Definition is_low (u : N) : bool := ((56320 <=? u) && (u <=? 57343))%N.

Definition emit (chunk : string) (k : option (string * string))
  : option (string * string) :=
  '(str, rest) ← k; Some (chunk +:+ str, rest).

Definition simple_escape (e : ascii) : option string :=
  if Ascii.eqb e dquote then Some (String dquote EmptyString)
  else if Ascii.eqb e backslash then Some (String backslash EmptyString)
  else if Ascii.eqb e "/" then Some "/"
  else if Ascii.eqb e "b" then Some (byte 8)
  else if Ascii.eqb e "f" then Some (byte 12)
  else if Ascii.eqb e "n" then Some (byte 10)
  else if Ascii.eqb e "r" then Some (byte 13)
  else if Ascii.eqb e "t" then Some (byte 9)
  else None.

(** The characters of a string literal after its opening quote, up to
    and including the closing one. *)
Fixpoint string_body (s : string) : option (string * string) :=
  match s with
  | EmptyString => None
  | String c r =>
      if Ascii.eqb c dquote then Some (EmptyString, r)
      else if Ascii.eqb c backslash then
        match r with
        | EmptyString => None
        | String e r1 =>
            if Ascii.eqb e "u" then
              match r1 with
              | String h1 (String h2 (String h3 (String h4 r2))) =>
                  match hex4 h1 h2 h3 h4 with
                  | None => None
                  | Some hi =>
                      match r2 with
                      | String b (String u (String l1 (String l2
                          (String l3 (String l4 r3))))) =>
                          match hex4 l1 l2 l3 l4 with
                          | Some lo =>
                              if is_high hi && Ascii.eqb b backslash
                                 && Ascii.eqb u "u" && is_low lo
                              then emit (utf8 (65536 + (hi - 55296) * 1024
                                               + (lo - 56320))%N)
                                        (string_body r3)
                              else emit (utf8 hi) (string_body r2)
                          | None => emit (utf8 hi) (string_body r2)
                          end
                      | _ => emit (utf8 hi) (string_body r2)
                      end
                  end
              | _ => None
              end
            else match simple_escape e with
                 | Some chunk => emit chunk (string_body r1)
                 | None => None
                 end
        end
      else if (N_of_ascii c <? 32)%N then None
      else emit (String c EmptyString) (string_body r)
  end.

(** A value that holds no other: [null], [true], [false], a string or a
    number, at the first character of [s]. *)
Definition parse_scalar (s : string) : option (JSValue * string) :=
  match s with
  | EmptyString => None
  | String c r =>
      if Ascii.eqb c "n" then r' ← strip "ull" r; Some (JNull, r')
      else if Ascii.eqb c "t" then r' ← strip "rue" r; Some (JBool true, r')
      else if Ascii.eqb c "f" then r' ← strip "alse" r; Some (JBool false, r')
      else if Ascii.eqb c dquote
      then '(str, r') ← string_body r; Some (JStr str, r')
      else '(lit, r') ← parse_number s; Some (JNum lit, r')
  end.

(** value, elements (after an opening bracket, at least one element) and
    members (after an opening brace, at least one member); [fuel] bounds
    the depth of the calls. *)
Fixpoint parse_value (fuel : nat) (s : string) : option (JSValue * string) :=
  match fuel with
  | O => None
  | S n =>
      match skip_ws s with
      | EmptyString => None
      | String c r =>
          if Ascii.eqb c "[" then
            match skip_ws r with
            | String d r' =>
                if Ascii.eqb d "]" then Some (JArr [], r')
                else '(vs, r'') ← parse_elements n r; Some (JArr vs, r'')
            | EmptyString => None
            end
          else if Ascii.eqb c "{" then
            match skip_ws r with
            | String d r' =>
                if Ascii.eqb d "}" then Some (JObj [], r')
                else '(ms, r'') ← parse_members n r; Some (JObj ms, r'')
            | EmptyString => None
            end
          else parse_scalar (String c r)
      end
  end
with parse_elements (fuel : nat) (s : string)
  : option (list JSValue * string) :=
  match fuel with
  | O => None
  | S n =>
      '(v, r) ← parse_value n s;
      match skip_ws r with
      | String d r' =>
          if Ascii.eqb d ","
          then '(vs, r'') ← parse_elements n r'; Some (v :: vs, r'')
          else if Ascii.eqb d "]" then Some ([v], r')
          else None
      | EmptyString => None
      end
  end
with parse_members (fuel : nat) (s : string)
  : option (list (string * JSValue) * string) :=
  match fuel with
  | O => None
  | S n =>
      match skip_ws s with
      | String q r0 =>
          if Ascii.eqb q dquote then
            '(key, r1) ← string_body r0;
            match skip_ws r1 with
            | String colon r2 =>
                if Ascii.eqb colon ":" then
                  '(v, r) ← parse_value n r2;
                  match skip_ws r with
                  | String d r' =>
                      if Ascii.eqb d ","
                      then '(ms, r'') ← parse_members n r';
                           Some ((key, v) :: ms, r'')
                      else if Ascii.eqb d "}" then Some ([(key, v)], r')
                      else None
                  | EmptyString => None
                  end
                else None
            | EmptyString => None
            end
          else None
      | EmptyString => None
      end
  end.

(** [JSON.parse(text)]; [None] is the [SyntaxError] it throws.  Of two
    nested calls in a row at least one follows a consumed character, so
    twice the length is fuel enough ([parse_any_fuel] below). *)
Definition parse (text : string) : option JSValue :=
  match parse_value (2 * String.length text + 2) text with
  | Some (v, rest) =>
      match skip_ws rest with
      | EmptyString => Some v
      | String _ _ => None
      end
  | None => None
  end.

Definition is_continuation (c : ascii) : bool :=
  let n := N_of_ascii c in ((128 <=? n) && (n <? 192))%N.

(** The code points of a string, each as a string: what iterating a
    string yields. *)
Fixpoint code_points (s : string) : list string :=
  match s with
  | EmptyString => []
  | String c r =>
      match code_points r with
      | String d g :: gs =>
          if is_continuation d then String c (String d g) :: gs
          else String c EmptyString :: String d g :: gs
      | gs => String c EmptyString :: gs
      end
  end.

(** [[...v]]: the elements an iterable yields; [None] is the [TypeError]
    of spreading a value that is not iterable. *)
Definition spread (v : JSValue) : option (list JSValue) :=
  match v with
  | JArr elems => Some elems
  | JStr s => Some (JStr <$> code_points s)
  | JNull | JBool _ | JNum _ | JObj _ => None
  end.

End JSON.

(** ** Documents, requests and responses *)

(** Modelled from the spec: [models/User.js] is not among the sources; an
    identity is an opaque id used as a scoping key. *)
Record User := { user_id : string }.

(** Modelled from the spec: [models/Car.js] is not among the sources.  The
    persisted shape is [{id, title, description, tags[], images[], user}];
    a text field the document does not carry is [None]. *)
Record Car := {
  car_id : string;
  car_title : option string;
  car_description : option string;
  car_tags : list string;
  car_images : list string;
  car_user : string
}.

(** An entry of [req.files]; the handlers read its [path] only, the URL
    the remote asset store returned for the upload. *)
Record File := { originalname : string; path : string }.

(** The fields the handlers read from [req.body]; a field the multipart
    body does not carry is [undefined], here [None]. *)
Record Body := {
  body_title : option string;
  body_description : option string;
  body_tags : option (list string);
  body_existingImages : option string
}.

(** What a handler reads from [req]; [req_files] is what [upload.array]
    left on it: the files of the request, each with the URL the storage
    gave it. *)
Record Request := {
  req_authorization : option string;   (* req.header('Authorization') *)
  req_params_id : string;              (* req.params.id *)
  req_body : Body;
  req_files : option (list File)
}.

Inductive Json :=
| JsonError (error : string)       (* { error: ... } *)
| JsonMessage (message : string)   (* { message: ... } *)
| JsonCar (car : Car)
| JsonCars (cars : list Car)
| JsonNull
| ErrorPage.                       (* not JSON: the page of Express's own
                                      error handler *)

Record Response := { status : nat; json : Json }.

Definition res (code : nat) (payload : Json) : Response :=
  {| status := code; json := payload |}.

(** ** The world outside the handlers *)

Inductive StoreOp :=
| UserFindById
| CarSave
| CarFind
| CarFindOne
| CarFindOneAndUpdate
| CarFindOneAndDelete.

(** What leaves the process, in the order it happens: a call on one of the
    two collections, or a deletion request to the remote asset store with
    the identifier it names. *)
Inductive Event :=
| EvStore (op : StoreOp)
| EvDestroy (target : string).

Record World := {
  cars : gmap string Car;     (* the car collection, keyed by _id *)
  users : gmap string User;   (* the user collection, keyed by _id *)
  log : list Event
}.

Definition extend (es : list Event) (w : World) : World :=
  {| cars := cars w; users := users w; log := log w ++ es |}.

Definition record (e : Event) (w : World) : World := extend [e] w.

Definition set_cars (m : gmap string Car) (w : World) : World :=
  {| cars := m; users := users w; log := log w |}.

(** What a request cannot control: the verdict of [jwt.verify] on a token
    (the [id] of the decoded payload, which the payload may lack, or
    [None] when it throws), whether a call on a collection fails, whether
    the [i]-th deletion request of a Delete is rejected, the [_id] a new
    document is given, the cast the car schema applies to the [images]
    of an update document ([None]: the cast fails), and whether multer
    takes the multipart payload of a request for a field name and its
    storage stores every file of it. *)
Record Env := {
  jwt_verify : string → option (option string);
  store_ok : StoreOp → bool;
  destroy_ok : nat → string → bool;
  new_id : string;
  cast_images : JSValue → option (list string);
  multer_ok : string → Request → bool
}.

Inductive Exn :=
| JsonWebTokenError
| StoreError (op : StoreOp)
| DuplicateKey
| CastError
| RemoteError (target : string)
| SyntaxError
| TypeError.

(** ** Awaited computations *)

Inductive Outcome (A : Type) :=
| Resolved (a : A)
| Rejected (e : Exn).
Arguments Resolved {A} a.
Arguments Rejected {A} e.

Definition Async (A : Type) : Type := World → Outcome A * World.

Definition ret {A : Type} (a : A) : Async A := λ w, (Resolved a, w).

Definition bind {A B : Type} (m : Async A) (k : A → Async B) : Async B :=
  λ w, match m w with
       | (Resolved a, w') => k a w'
       | (Rejected e, w') => (Rejected e, w')
       end.

Declare Scope async_scope.
Delimit Scope async_scope with async.
Bind Scope async_scope with Async.
Notation "x <- m ;; k" := (bind m (λ x, k))
  (at level 100, m at next level, right associativity) : async_scope.
Notation "m ;; k" := (bind m (λ _, k))
  (at level 100, right associativity) : async_scope.
Local Open Scope async_scope.

(** Reading and changing the world. *)
Definition gets {A : Type} (f : World → A) : Async A :=
  λ w, (Resolved (f w), w).
Definition modify (f : World → World) : Async () := λ w, (Resolved (), f w).

Definition throw {A : Type} (e : Exn) : Async A := λ w, (Rejected e, w).

(** A step that touches nothing outside: it has its outcome at once. *)
Definition settle {A : Type} (o : Outcome A) : Async A := λ w, (o, w).

(** A value that is there or throws. *)
Definition or_throw {A : Type} (e : Exn) (v : option A) : Async A :=
  match v with
  | Some a => ret a
  | None => throw e
  end.

Definition Handler : Type := World → Response * World.

(** [try { body } catch (error) { res.status(..).json(..) }]; what the
    handlers write to the console is left out. *)
Definition try_catch (body : Async Response) (on_error : Exn → Response)
  : Handler :=
  λ w, match body w with
       | (Resolved r, w') => (r, w')
       | (Rejected e, w') => (on_error e, w')
       end.

(** Running the rest of the middleware chain inside a computation. *)
Definition run (h : Handler) : Async Response :=
  λ w, let '(r, w') := h w in (Resolved r, w').

(** ** The collections and the remote asset store *)

Section Collections.
Context (env : Env).

(** A call on a collection is recorded, then fails or goes on. *)
Definition store_call (op : StoreOp) : Async () :=
  λ w, if store_ok env op
       then (Resolved (), record (EvStore op) w)
       else (Rejected (StoreError op), record (EvStore op) w).

(** The document with this [_id] owned by this user, if any: the filter
    [{ _id: id, user: uid }]. *)
Definition owned (id uid : string) (m : gmap string Car) : option Car :=
  match m !! id with
  | Some car => if decide (car_user car = uid) then Some car else None
  | None => None
  end.

(** Modelled from the spec: [User.findById]; an [undefined] id matches
    no document. *)
Definition User_findById (id : option string) : Async (option User) :=
  store_call UserFindById;;
  gets (λ w, id ≫= λ i, users w !! i).

(** Modelled from the spec: [Car.findOne({ _id, user })]. *)
Definition Car_findOne (id uid : string) : Async (option Car) :=
  store_call CarFindOne;;
  gets (λ w, owned id uid (cars w)).

(** Modelled from the spec: [Car.find({ user })], in the order of the
    collection. *)
Definition Car_find (uid : string) : Async (list Car) :=
  store_call CarFind;;
  gets (λ w, filter (λ car, car_user car = uid)
               (snd <$> map_to_list (cars w))).

(** Modelled from the spec: [newCar.save()]; the collection holds one
    document per [_id]. *)
Definition Car_save (car : Car) : Async Car :=
  store_call CarSave;;
  taken <- gets (λ w, cars w !! car_id car);;
  match taken with
  | Some _ => throw DuplicateKey
  | None =>
      modify (λ w, set_cars (<[car_id car := car]> (cars w)) w);;
      ret car
  end.

(** The update document [{ title, description, tags, images }]. *)
Record UpdateData := {
  upd_title : option string;
  upd_description : option string;
  upd_tags : option (list string);
  upd_images : JSValue
}.

(** The document after the update: a field the update carries takes its
    value, a field it leaves [undefined] is not written; [_id] and [user]
    are not part of the update. *)
Definition apply_update (u : UpdateData) (images : list string) (car : Car)
  : Car :=
  {| car_id := car_id car;
     car_title := match upd_title u with
                  | Some t => Some t
                  | None => car_title car
                  end;
     car_description := match upd_description u with
                        | Some d => Some d
                        | None => car_description car
                        end;
     car_tags := default (car_tags car) (upd_tags u);
     car_images := images;
     car_user := car_user car |}.

(** Modelled from the spec: [Car.findOneAndUpdate({ _id, user }, update,
    { new: true })].  The update is cast to the schema first; the
    matching document then has the fields the update carries replaced,
    in one step, and is returned as it is afterwards. *)
Definition Car_findOneAndUpdate (id uid : string) (u : UpdateData)
  : Async (option Car) :=
  images <- or_throw CastError (cast_images env (upd_images u));;
  store_call CarFindOneAndUpdate;;
  found <- gets (λ w, owned id uid (cars w));;
  match found with
  | Some car =>
      let car' := apply_update u images car in
      modify (λ w, set_cars (<[id := car']> (cars w)) w);;
      ret (Some car')
  | None => ret None
  end.

(** Modelled from the spec: [Car.findOneAndDelete({ _id, user })]. *)
Definition Car_findOneAndDelete (id uid : string) : Async (option Car) :=
  store_call CarFindOneAndDelete;;
  found <- gets (λ w, owned id uid (cars w));;
  match found with
  | Some car =>
      modify (λ w, set_cars (delete id (cars w)) w);;
      ret (Some car)
  | None => ret None
  end.

(** [cloudinary.uploader.destroy(target)], the [i]-th of the request:
    the deletion request is issued, and the promise resolves or rejects. *)
Definition cloudinary_destroy (i : nat) (target : string) : Async () :=
  λ w, if destroy_ok env i target
       then (Resolved (), record (EvDestroy target) w)
       else (Rejected (RemoteError target), record (EvDestroy target) w).

End Collections.

(** ** The authentication middleware (middleware/auth.js) *)

Section Routes.
Context (env : Env).

Definition unauthorized (msg : string) : Response := res 401 (JsonError msg).

(** [req.header('Authorization')?.replace('Bearer ', '')] *)
Definition bearer_token (req : Request) : option string :=
  JsString.replace "Bearer " EmptyString <$> req_authorization req.

(** [next] stands for the rest of the chain, which receives [req.user]. *)
Definition authMiddleware (req : Request) (next : User → Handler) : Handler :=
  match bearer_token req with
  | Some (String c t) =>
      let token := String c t in
      try_catch
        (decoded <- or_throw JsonWebTokenError (jwt_verify env token);;
         user <- User_findById env decoded;;
         match user with
         | None => ret (unauthorized "User not found")
         | Some u => run (next u)
         end)
        (λ _, unauthorized "Invalid token")
  | _ => λ w, (unauthorized "Authorization required", w)
  end.

(** ** The car routes (routes/carRoutes.js) *)

(** [req.files.map(file => file.path)] *)
Definition paths (fs : list File) : list string := path <$> fs.

(** [router.post('/')] after the middleware. *)
Definition create_car (req : Request) (user : User) : Handler :=
  let b := req_body req in
  let images := match req_files req with
                | Some fs => paths fs
                | None => []
                end in
  try_catch
    (let newCar := {| car_id := new_id env;
                      car_title := body_title b;
                      car_description := body_description b;
                      car_tags := default [] (body_tags b);
                      car_images := images;
                      car_user := user_id user |} in
     saved <- Car_save env newCar;;
     ret (res 201 (JsonCar saved)))
    (λ _, res 500 (JsonError "Error creating car")).

Definition not_found : Response := res 404 (JsonError "Car not found").

(** [res.status(200).json(updatedCar)], where the document may be [null]. *)
Definition json_of (doc : option Car) : Json :=
  match doc with
  | Some car => JsonCar car
  | None => JsonNull
  end.

(** The image list of the update document (carRoutes.js, 61-67): a
    [SyntaxError] when the text does not parse, a [TypeError] when what it
    parses to cannot be spread. *)
Definition reconcile (existingImages : option string)
  (files : option (list File)) : Outcome JSValue :=
  match JSON.parse (JsString.or_else existingImages "[]") with
  | None => Rejected SyntaxError
  | Some kept =>
      match files with
      | Some (f :: fs) =>
          let newImageUrls := paths (f :: fs) in
          match JSON.spread kept with
          | None => Rejected TypeError
          | Some elems => Resolved (JArr (elems ++ (JStr <$> newImageUrls)))
          end
      | _ => Resolved kept
      end
  end.

(** [router.put('/:id')] after the middleware. *)
Definition update_car (req : Request) (user : User) : Handler :=
  let b := req_body req in
  let id := req_params_id req in
  try_catch
    (existingCar <- Car_findOne env id (user_id user);;
     match existingCar with
     | None => ret not_found
     | Some _ =>
         images <- settle (reconcile (body_existingImages b) (req_files req));;
         let updateData := {| upd_title := body_title b;
                              upd_description := body_description b;
                              upd_tags := body_tags b;
                              upd_images := images |} in
         updatedCar <- Car_findOneAndUpdate env id (user_id user) updateData;;
         ret (res 200 (json_of updatedCar))
     end)
    (λ _, res 500 (JsonError "Error updating car")).

(** The loop over [car.images] (carRoutes.js, 90-93); [i] counts the
    deletion requests issued so far. *)
Fixpoint destroy_images (i : nat) (images : list string) : Async () :=
  match images with
  | [] => ret ()
  | imageUrl :: rest =>
      publicId <- or_throw TypeError (publicId imageUrl);;
      cloudinary_destroy env i (destroy_target publicId);;
      destroy_images (S i) rest
  end.

(** [router.delete('/:id')] after the middleware. *)
Definition delete_car (req : Request) (user : User) : Handler :=
  let id := req_params_id req in
  try_catch
    (car <- Car_findOne env id (user_id user);;
     match car with
     | None => ret not_found
     | Some car =>
         destroy_images 0 (car_images car);;
         Car_findOneAndDelete env id (user_id user);;
         ret (res 200 (JsonMessage "Car deleted successfully"))
     end)
    (λ _, res 500 (JsonError "Error deleting car")).

(** [router.get('/')] after the middleware. *)
Definition list_cars (req : Request) (user : User) : Handler :=
  try_catch
    (found <- Car_find env (user_id user);;
     ret (res 200 (JsonCars found)))
    (λ _, res 500 (JsonError "Error fetching cars")).

(** [router.get('/:id')] after the middleware. *)
Definition get_car (req : Request) (user : User) : Handler :=
  try_catch
    (car <- Car_findOne env (req_params_id req) (user_id user);;
     match car with
     | None => ret not_found
     | Some car => ret (res 200 (JsonCar car))
     end)
    (λ _, res 500 (JsonError "Error fetching car")).

(** Express's own answer to an error a middleware hands on: status 500
    and its error page. *)
Definition express_error : Response := res 500 ErrorPage.

(** [upload.array(fieldname, maxCount)], which stands between the
    middleware and the handler of POST and PUT (carRoutes.js 27, 30, 52).
    multer and its Cloudinary storage are libraries, taken here by their
    contract: a request that is not multipart passes as it is, with
    [req.files] undefined; of a multipart request multer takes at most
    [maxCount] files, each of which the storage uploads, its URL becoming
    the file's [path]; when multer refuses the request or an upload fails,
    the error goes to Express and [next], the handler, is not run. *)
Definition upload_array (fieldname : string) (maxCount : nat) (req : Request)
  (next : Handler) : Handler :=
  match req_files req with
  | None => next
  | Some fs =>
      if (maxCount <? length fs) || negb (multer_ok env fieldname req)
      then λ w, (express_error, w)
      else next
  end.

(** The five endpoints, each behind the middleware; POST and PUT with
    the upload in between. *)
Definition router_post (req : Request) : Handler :=
  authMiddleware req (λ user, upload_array "images" 10 req (create_car req user)).
Definition router_put (req : Request) : Handler :=
  authMiddleware req
    (λ user, upload_array "newImages" 10 req (update_car req user)).
Definition router_delete (req : Request) : Handler :=
  authMiddleware req (delete_car req).
Definition router_get_all (req : Request) : Handler :=
  authMiddleware req (list_cars req).
Definition router_get (req : Request) : Handler :=
  authMiddleware req (get_car req).

End Routes.

(** ** Vocabulary of the statements *)

(** The URLs of the uploaded files: [req.files.map(file => file.path)],
    nothing when [req.files] is not there. *)
Definition uploaded_urls (req : Request) : list string :=
  match req_files req with
  | Some fs => paths fs
  | None => []
  end.

(** What follows the middleware on the five endpoints. *)
Definition car_handlers (env : Env) (req : Request) : list (User → Handler) :=
  [create_car env req; update_car env req; delete_car env req;
   list_cars env req; get_car env req].

(** The update document of a request once its image list is known. *)
Definition update_of (req : Request) (images : JSValue) : UpdateData :=
  {| upd_title := body_title (req_body req);
     upd_description := body_description (req_body req);
     upd_tags := body_tags (req_body req);
     upd_images := images |}.

(** The identifier the loop sends for an image URL. *)
Definition image_target (imageUrl : string) : string :=
  match publicId imageUrl with
  | Some seg => destroy_target seg
  | None => EmptyString
  end.

(** The deletion requests for a list of image URLs, in its order. *)
Definition destroy_events (images : list string) : list Event :=
  (λ imageUrl, EvDestroy (image_target imageUrl)) <$> images.

(** Every deletion request of [images] resolves, the first being the
    [i]-th of the request. *)
Definition all_resolve (env : Env) (i : nat) (images : list string) : Prop :=
  ∀ j imageUrl, images !! j = Some imageUrl →
    destroy_ok env (i + j) (image_target imageUrl) = true.

(** Every response a computation resolves to satisfies [P]. *)
Definition answers (P : Response → Prop) (m : Async Response) : Prop :=
  ∀ w r w', m w = (Resolved r, w') → P r.

Definition not_401 (r : Response) : Prop := status r ≠ 401.

(** ** Vocabulary of the effects *)

(** [s.includes(pat)] *)
Fixpoint includes (pat s : string) : bool :=
  String.prefix pat s ||
  match s with
  | EmptyString => false
  | String _ rest => includes pat rest
  end.

(** Every run of the computation takes a world to one related by [R]. *)
Definition keeps {A : Type} (R : relation World) (m : Async A) : Prop :=
  ∀ w, R w (m w).2.

Definition handler_keeps (R : relation World) (h : Handler) : Prop :=
  ∀ w, R w (h w).2.

(** The users are the same and the log has only grown. *)
Definition grows (w w' : World) : Prop :=
  users w' = users w ∧ log w `prefix_of` log w'.

(** The car collection is the same except, perhaps, at [id]. *)
Definition same_outside (id : string) (w w' : World) : Prop :=
  users w' = users w ∧ ∀ id', id' ≠ id → cars w' !! id' = cars w !! id'.

(** The five endpoints. *)
Definition routes (env : Env) : list (Request → Handler) :=
  [router_post env; router_put env; router_delete env; router_get_all env;
   router_get env].

(** ** A concrete deployment, to run the handlers on *)

Module Scenario.

Definition alice : User := {| user_id := "alice" |}.
Definition bob : User := {| user_id := "bob" |}.

Definition url_front : string :=
  "https://res.cloudinary.com/demo/image/upload/v1712/cars/front.jpg".
Definition url_rear : string :=
  "https://res.cloudinary.com/demo/image/upload/v1712/cars/rear.jpg".
Definition url_side : string :=
  "https://res.cloudinary.com/demo/image/upload/v1713/cars/side.png".
Definition url_dotted : string :=
  "https://res.cloudinary.com/demo/image/upload/v1714/cars/front.view.jpg".

Definition tesla : Car :=
  {| car_id := "car1";
     car_title := Some "Tesla Model X";
     car_description := Some "Fully electric luxury SUV";
     car_tags := ["electric"; "luxury"];
     car_images := [url_front; url_rear];
     car_user := "alice" |}.

Definition roadster : Car :=
  {| car_id := "car7";
     car_title := Some "Roadster";
     car_description := None;
     car_tags := [];
     car_images := [url_dotted];
     car_user := "alice" |}.

Definition world : World :=
  {| cars := {[ "car1" := tesla; "car7" := roadster ]};
     users := {[ "alice" := alice; "bob" := bob ]};
     log := [] |}.

(** A schema cast for an array of strings that takes arrays of strings
    as they are and nothing else. *)
Definition string_array (v : JSValue) : option (list string) :=
  match v with
  | JArr elems =>
      mapM (λ e, match e with JStr s => Some s | _ => None end) elems
  | _ => None
  end.

Definition tokens (token : string) : option (option string) :=
  if String.eqb token "token-alice" then Some (Some "alice")
  else if String.eqb token "token-bob" then Some (Some "bob")
  else if String.eqb token "token-ghost" then Some (Some "ghost")
  else None.

(** Everything outside answers. *)
Definition env : Env :=
  {| jwt_verify := tokens;
     store_ok := λ _, true;
     destroy_ok := λ _ _, true;
     new_id := "car2";
     cast_images := string_array;
     multer_ok := λ _ _, true |}.

(** The second deletion request of a Delete is rejected. *)
Definition env_second_rejected : Env :=
  {| jwt_verify := tokens;
     store_ok := λ _, true;
     destroy_ok := λ i _, negb (i =? 1);
     new_id := "car2";
     cast_images := string_array;
     multer_ok := λ _ _, true |}.

Definition no_body : Body :=
  {| body_title := None; body_description := None; body_tags := None;
     body_existingImages := None |}.

Definition on_car (id : string) (authorization : option string) (b : Body)
  (fs : option (list File)) : Request :=
  {| req_authorization := authorization; req_params_id := id;
     req_body := b; req_files := fs |}.

Definition edit (existingImages : option string) : Body :=
  {| body_title := Some "Model X Plaid";
     body_description := Some "Tri-motor";
     body_tags := Some ["electric"];
     body_existingImages := existingImages |}.

Definition upload (name url : string) : File :=
  {| originalname := name; path := url |}.

End Scenario.

(** ** Deployments in which something outside fails *)

Module Faults.

(** Every call on a collection fails. *)
Definition env_store_down : Env :=
  {| jwt_verify := Scenario.tokens;
     store_ok := λ _, false;
     destroy_ok := λ _ _, true;
     new_id := "car2";
     cast_images := Scenario.string_array;
     multer_ok := λ _ _, true |}.

(** The collection refuses to remove a record; all else answers. *)
Definition env_removal_refused : Env :=
  {| jwt_verify := Scenario.tokens;
     store_ok := λ op, match op with
                       | CarFindOneAndDelete => false
                       | _ => true
                       end;
     destroy_ok := λ _ _, true;
     new_id := "car2";
     cast_images := Scenario.string_array;
     multer_ok := λ _ _, true |}.

(** Every token verifies, to a payload without [id]. *)
Definition env_payload_without_id : Env :=
  {| jwt_verify := λ _, Some None;
     store_ok := λ _, true;
     destroy_ok := λ _ _, true;
     new_id := "car2";
     cast_images := Scenario.string_array;
     multer_ok := λ _ _, true |}.



End Faults.

(** * Facts *)

(** ** The built-ins on examples *)

Example publicId_cloudinary :
  publicId "https://res.cloudinary.com/demo/image/upload/v1712/cars/abc123.jpg"
  = Some (Some "abc123").
Proof. reflexivity. Qed.

Example parse_empty_array : JSON.parse "[]" = Some (JArr []).
Proof. reflexivity. Qed.

Example parse_url_list :
  JSON.parse ("[" +:+ JSON.quoted "urlA" +:+ ", " +:+ JSON.quoted "urlB" +:+ "]")
  = Some (JArr [JStr "urlA"; JStr "urlB"]).
Proof. reflexivity. Qed.

Example parse_empty_text : JSON.parse EmptyString = None.
Proof. reflexivity. Qed.

Example parse_unquoted : JSON.parse "[urlA]" = None.
Proof. reflexivity. Qed.

Example parse_trailing_comma : JSON.parse "[1,]" = None.
Proof. reflexivity. Qed.

Example parse_nested :
  JSON.parse ("{" +:+ JSON.quoted "a" +:+ ": [1, -2.5e3, null, true, [[]]] } ")
  = Some (JObj [("a", JArr [JNum "1"; JNum "-2.5e3"; JNull; JBool true;
                            JArr [JArr []]])]).
Proof. reflexivity. Qed.

Example parse_escape :
  JSON.parse (JSON.quoted "aA\né") =
  Some (JStr ("aA" +:+ JSON.byte 10 +:+ JSON.byte 195 +:+ JSON.byte 169)).
Proof. reflexivity. Qed.

Example spread_string : JSON.spread (JStr "abc") = Some [JStr "a"; JStr "b"; JStr "c"].
Proof. reflexivity. Qed.

Ltac unfold_async :=
  unfold try_catch, bind, ret, gets, modify, throw, settle, or_throw, run,
    store_call in *.

Ltac same_world :=
  unfold set_cars, record, extend; simpl; rewrite <- ?app_assoc; reflexivity.

(** ** [JSON.parse] does not depend on its fuel *)

Lemma skip_ws_length s : String.length (JSON.skip_ws s) ≤ String.length s.
Proof.
  induction s as [|c s IH]; simpl; [done|].
  destruct (JSON.is_ws c); simpl; lia.
Qed.

Lemma skip_ws_cons s c r :
  JSON.skip_ws s = String c r → String.length r < String.length s.
Proof.
  intros H. pose proof (skip_ws_length s) as Hl.
  rewrite H in Hl. simpl in Hl. lia.
Qed.

Lemma span_digits_length s : String.length (JSON.span_digits s).2 ≤ String.length s.
Proof.
  induction s as [|c s IH]; simpl; [done|].
  destruct (JSON.is_digit c); simpl; [|lia].
  destruct (JSON.span_digits s); simpl in *. lia.
Qed.

Lemma strip_length p s r :
  JSON.strip p s = Some r → String.length r ≤ String.length s.
Proof.
  revert s. induction p as [|a p IH]; intros [|b s]; simpl; try done.
  - by intros [= <-].
  - by intros [= <-].
  - destruct (Ascii.eqb a b); [|done]. intros H%IH. lia.
Qed.

Lemma emit_Some chunk k str r :
  JSON.emit chunk k = Some (str, r) → ∃ str', k = Some (str', r).
Proof.
  unfold JSON.emit. destruct k as [[str' r']|]; simpl; [|done].
  intros [= _ <-]. eauto.
Qed.

Lemma string_body_length n : ∀ s str r,
  String.length s ≤ n → JSON.string_body s = Some (str, r) →
  String.length r < String.length s.
Proof.
  induction n as [|n IH]; intros s str r Hn.
  { destruct s; [done|simpl in Hn; lia]. }
  destruct s as [|c s]; [done|]. simpl in Hn. 
  assert (Hrec : ∀ x str',
            String.length x ≤ n → String.length x ≤ String.length s →
            JSON.string_body x = Some (str', r) →
            String.length r < S (String.length s)).
  { intros x str' Hx Hxs Hb. apply IH in Hb; [lia|done]. }
  simpl JSON.string_body.
  destruct (Ascii.eqb c JSON.dquote); [intros [= _ <-]; simpl; lia|].
  destruct (Ascii.eqb c JSON.backslash).
  - destruct s as [|e r1]; [done|].
    destruct (Ascii.eqb e "u").
    + destruct r1 as [|h1 [|h2 [|h3 [|h4 r2]]]]; try done.
      destruct (JSON.hex4 h1 h2 h3 h4) as [hi|]; [|done].
      assert (Hr2 : ∀ str', JSON.string_body r2 = Some (str', r) →
                String.length r < 6 + String.length r2).
      { intros str' Hb. apply (Hrec r2 str'); simpl in *; [lia|lia|done]. }
      destruct r2 as [|b [|u [|l1 [|l2 [|l3 [|l4 r3]]]]]];
        try (intros [str' Hb]%emit_Some; by apply (Hr2 str')).
      destruct (JSON.hex4 l1 l2 l3 l4) as [lo|];
        [|intros [str' Hb]%emit_Some; by apply (Hr2 str')].
      destruct (_ && _);
        [|intros [str' Hb]%emit_Some; by apply (Hr2 str')].
      intros [str' Hb]%emit_Some.
      apply (Hrec r3 str') in Hb; simpl in *; lia.
    + destruct (JSON.simple_escape e); [|done].
      intros [str' Hb]%emit_Some.
      apply (Hrec r1 str') in Hb; simpl in *; lia.
  - destruct (_ <? _)%N; [done|].
    intros [str' Hb]%emit_Some.
    apply (Hrec s str') in Hb; simpl in *; lia.
Qed.

Lemma string_body_shorter s str r :
  JSON.string_body s = Some (str, r) → String.length r < String.length s.
Proof. by apply (string_body_length (String.length s)). Qed.

Lemma parse_number_length s lit r :
  JSON.parse_number s = Some (lit, r) → String.length r < String.length s.
Proof.
  unfold JSON.parse_number.
  set (p := match s with
            | String c rest => if Ascii.eqb c "-" then (String c EmptyString, rest)
                               else (EmptyString, s)
            | EmptyString => (EmptyString, s) end).
  assert (Hp : String.length p.2 ≤ String.length s).
  { subst p. destruct s as [|c rest]; simpl; [done|].
    destruct (Ascii.eqb c "-"); simpl; lia. }
  destruct p as [sign s0]. simpl in Hp.
  destruct (JSON.parse_int s0) as [[i s1]|] eqn:Hi; simpl; [|done].
  assert (String.length s1 < String.length s0).
  { unfold JSON.parse_int in Hi. destruct s0 as [|c rest]; [done|].
    destruct (Ascii.eqb c "0"); [injection Hi as _ <-; simpl; lia|].
    destruct (JSON.is_digit c); [|done].
    pose proof (span_digits_length rest) as Hs.
    destruct (JSON.span_digits rest). injection Hi as _ <-. simpl in *. lia. }
  destruct (JSON.parse_frac s1) as [[f s2]|] eqn:Hf; simpl; [|done].
  assert (String.length s2 ≤ String.length s1).
  { unfold JSON.parse_frac in Hf. destruct s1 as [|c rest]; [by injection Hf as _ <-|].
    destruct (Ascii.eqb c "."); [|by injection Hf as _ <-].
    pose proof (span_digits_length rest) as Hs.
    destruct (JSON.span_digits rest) as [[|? ?] ?]; [done|].
    injection Hf as _ <-. simpl in *. lia. }
  destruct (JSON.parse_exp s2) as [[e s3]|] eqn:He; simpl; [|done].
  assert (String.length s3 ≤ String.length s2).
  { unfold JSON.parse_exp in He. destruct s2 as [|c rest]; [by injection He as _ <-|].
    destruct (_ || _); [|by injection He as _ <-].
    set (q := match rest with
              | String g r0 => if Ascii.eqb g "+" || Ascii.eqb g "-"
                              then (String g EmptyString, r0) else (EmptyString, rest)
              | EmptyString => (EmptyString, rest) end) in He.
    assert (Hq : String.length q.2 ≤ String.length rest).
    { subst q. destruct rest as [|g r0]; simpl; [done|].
      destruct (_ || _); simpl; lia. }
    destruct q as [sg r0]. simpl in Hq.
    pose proof (span_digits_length r0) as Hs.
    destruct (JSON.span_digits r0) as [[|? ?] ?]; [done|].
    injection He as _ <-. simpl in *. lia. }
  intros [= _ <-]. lia.
Qed.

Lemma parse_scalar_length s v r :
  JSON.parse_scalar s = Some (v, r) → String.length r < String.length s.
Proof.
  unfold JSON.parse_scalar. destruct s as [|c s]; [done|].
  destruct (Ascii.eqb c "n").
  { destruct (JSON.strip "ull" s) as [r'|] eqn:E; simpl; [|done].
    intros [= _ <-]. apply strip_length in E. simpl. lia. }
  destruct (Ascii.eqb c "t").
  { destruct (JSON.strip "rue" s) as [r'|] eqn:E; simpl; [|done].
    intros [= _ <-]. apply strip_length in E. simpl. lia. }
  destruct (Ascii.eqb c "f").
  { destruct (JSON.strip "alse" s) as [r'|] eqn:E; simpl; [|done].
    intros [= _ <-]. apply strip_length in E. simpl. lia. }
  destruct (Ascii.eqb c JSON.dquote).
  { destruct (JSON.string_body s) as [[str r']|] eqn:E; simpl; [|done].
    intros [= _ <-]. apply string_body_shorter in E. simpl. lia. }
  destruct (JSON.parse_number (String c s)) as [[lit r']|] eqn:E; simpl; [|done].
  intros [= _ <-]. by apply parse_number_length in E.
Qed.

Opaque JSON.parse_scalar JSON.string_body JSON.skip_ws.

(** Whatever fuel a parse succeeded with, twice the number of characters
    it consumed is enough (and one more for a list of elements or of
    members). *)
Lemma parse_fuel n :
  (∀ s v r, JSON.parse_value n s = Some (v, r) →
     String.length r < String.length s ∧
     ∀ m, 2 * (String.length s - String.length r) ≤ m →
          JSON.parse_value m s = Some (v, r)) ∧
  (∀ s vs r, JSON.parse_elements n s = Some (vs, r) →
     String.length r < String.length s ∧
     ∀ m, 2 * (String.length s - String.length r) + 1 ≤ m →
          JSON.parse_elements m s = Some (vs, r)) ∧
  (∀ s ms r, JSON.parse_members n s = Some (ms, r) →
     String.length r < String.length s ∧
     ∀ m, 2 * (String.length s - String.length r) + 1 ≤ m →
          JSON.parse_members m s = Some (ms, r)).
Proof.
  induction n as [|n (IHv & IHe & IHm)]; [done|].
  split; [|split].
  - intros s v r. simpl.
    destruct (JSON.skip_ws s) as [|c r0] eqn:Hws; [done|].
    apply skip_ws_cons in Hws as Hlt.
    destruct (Ascii.eqb c "[") eqn:Hc1.
    { destruct (JSON.skip_ws r0) as [|d r'] eqn:Hws0; [done|].
      apply skip_ws_cons in Hws0 as Hlt0.
      destruct (Ascii.eqb d "]") eqn:Hd.
      - intros [= <- <-]. split; [lia|].
        intros [|m] Hm; [lia|]. simpl. by rewrite Hws, Hc1, Hws0, Hd.
      - destruct (JSON.parse_elements n r0) as [[vs r'']|] eqn:He; simpl; [|done].
        intros [= <- <-]. apply IHe in He as [Hl He]. split; [lia|].
        intros [|m] Hm; [lia|]. simpl. rewrite Hws, Hc1, Hws0, Hd.
        rewrite He; [done|lia]. }
    destruct (Ascii.eqb c "{") eqn:Hc2.
    { destruct (JSON.skip_ws r0) as [|d r'] eqn:Hws0; [done|].
      apply skip_ws_cons in Hws0 as Hlt0.
      destruct (Ascii.eqb d "}") eqn:Hd.
      - intros [= <- <-]. split; [lia|].
        intros [|m] Hm; [lia|]. simpl. by rewrite Hws, Hc1, Hc2, Hws0, Hd.
      - destruct (JSON.parse_members n r0) as [[ms r'']|] eqn:He; simpl; [|done].
        intros [= <- <-]. apply IHm in He as [Hl He]. split; [lia|].
        intros [|m] Hm; [lia|]. simpl. rewrite Hws, Hc1, Hc2, Hws0, Hd.
        rewrite He; [done|lia]. }
    intros Hsc. apply parse_scalar_length in Hsc as Hl. simpl in Hl.
    split; [lia|].
    intros [|m] Hm; [lia|]. simpl. by rewrite Hws, Hc1, Hc2.
  - intros s vs r. simpl.
    destruct (JSON.parse_value n s) as [[v r0]|] eqn:Hv; simpl; [|done].
    apply IHv in Hv as [Hl Hv].
    destruct (JSON.skip_ws r0) as [|d r'] eqn:Hws; [done|].
    apply skip_ws_cons in Hws as Hlt.
    destruct (Ascii.eqb d ",") eqn:Hd1.
    { destruct (JSON.parse_elements n r') as [[vs' r'']|] eqn:He; simpl; [|done].
      intros [= <- <-]. apply IHe in He as [Hl' He]. split; [lia|].
      intros [|m] Hm; [lia|]. simpl. rewrite Hv; [|lia]. simpl.
      rewrite Hws, Hd1, He; [done|lia]. }
    destruct (Ascii.eqb d "]") eqn:Hd2; [|done].
    intros [= <- <-]. split; [lia|].
    intros [|m] Hm; [lia|]. simpl. rewrite Hv; [|lia]. simpl.
    by rewrite Hws, Hd1, Hd2.
  - intros s ms r. simpl.
    destruct (JSON.skip_ws s) as [|q r0] eqn:Hws; [done|].
    apply skip_ws_cons in Hws as Hlt.
    destruct (Ascii.eqb q JSON.dquote) eqn:Hq; [|done].
    destruct (JSON.string_body r0) as [[key r1]|] eqn:Hk; simpl; [|done].
    apply string_body_shorter in Hk as Hlk.
    destruct (JSON.skip_ws r1) as [|colon r2] eqn:Hws1; [done|].
    apply skip_ws_cons in Hws1 as Hlt1.
    destruct (Ascii.eqb colon ":") eqn:Hcolon; [|done].
    destruct (JSON.parse_value n r2) as [[v r3]|] eqn:Hv; simpl; [|done].
    apply IHv in Hv as [Hl Hv].
    destruct (JSON.skip_ws r3) as [|d r'] eqn:Hws3; [done|].
    apply skip_ws_cons in Hws3 as Hlt3.
    destruct (Ascii.eqb d ",") eqn:Hd1.
    { destruct (JSON.parse_members n r') as [[ms' r'']|] eqn:He; simpl; [|done].
      intros [= <- <-]. apply IHm in He as [Hl' He]. split; [lia|].
      intros [|m] Hm; [lia|]. simpl. rewrite Hws, Hq, Hk. simpl.
      rewrite Hws1, Hcolon, Hv; [|lia]. simpl.
      rewrite Hws3, Hd1, He; [done|lia]. }
    destruct (Ascii.eqb d "}") eqn:Hd2; [|done].
    intros [= <- <-]. split; [lia|].
    intros [|m] Hm; [lia|]. simpl. rewrite Hws, Hq, Hk. simpl.
    rewrite Hws1, Hcolon, Hv; [|lia]. simpl.
    by rewrite Hws3, Hd1, Hd2.
Qed.

Transparent JSON.parse_scalar JSON.string_body JSON.skip_ws.

(** The text parses to [v] as soon as some fuel reads [v] from it and
    leaves white space only. *)
Lemma parse_any_fuel n text v rest :
  JSON.parse_value n text = Some (v, rest) →
  JSON.skip_ws rest = EmptyString →
  JSON.parse text = Some v.
Proof.
  intros Hv Hws. destruct (parse_fuel n) as (Hfuel & _ & _).
  apply Hfuel in Hv as [_ Hv]. unfold JSON.parse.
  rewrite Hv; [by rewrite Hws|]. lia.
Qed.

(** And a text [JSON.parse] rejects is rejected with any fuel. *)
Lemma parse_None_any_fuel n text :
  JSON.parse text = None →
  match JSON.parse_value n text with
  | Some (v, rest) => JSON.skip_ws rest ≠ EmptyString
  | None => True
  end.
Proof.
  intros Hnone. destruct (JSON.parse_value n text) as [[v rest]|] eqn:Hv; [|done].
  intros Hws. by rewrite (parse_any_fuel n text v rest Hv Hws) in Hnone.
Qed.

(** ** Facts about [split] *)

Lemma split_nonempty sep s : JsString.split sep s ≠ [].
Proof.
  destruct s as [|c s]; simpl; [done|].
  destruct (Ascii.eqb c sep); [done|].
  by destruct (JsString.split sep s).
Qed.

Lemma split_free sep s :
  JsString.contains sep s = false → JsString.split sep s = [s].
Proof.
  unfold JsString.contains.
  induction s as [|c s IH]; simpl; [done|].
  rewrite Ascii.eqb_sym.
  destruct (Ascii.eqb c sep); simpl; [done|].
  intros H. by rewrite (IH H).
Qed.

Lemma split_app sep a b :
  JsString.split sep (a +:+ String sep b)
  = JsString.split sep a ++ JsString.split sep b.
Proof.
  induction a as [|c a IH]; simpl.
  - by rewrite Ascii.eqb_refl.
  - rewrite IH. destruct (Ascii.eqb c sep); [done|].
    destruct (JsString.split sep a) eqn:E; [by apply split_nonempty in E|done].
Qed.

Lemma contains_app c a b :
  JsString.contains c (a +:+ b) = JsString.contains c a || JsString.contains c b.
Proof.
  unfold JsString.contains. induction a as [|x a IH]; simpl; [done|].
  by rewrite IH, orb_assoc.
Qed.

Lemma publicId_total imageUrl : ∃ seg, publicId imageUrl = Some seg.
Proof.
  unfold publicId, JsString.pop.
  destruct (last (JsString.split "/" imageUrl)) eqn:E; [eauto|].
  apply last_None in E. by apply split_nonempty in E.
Qed.

(** For a final path segment [name.ext] whose [name] has no dot, the
    identifier is [name]. *)
Lemma publicId_plain dir name ext :
  JsString.contains "/" name = false →
  JsString.contains "/" ext = false →
  JsString.contains "." name = false →
  publicId (dir +:+ String "/" (name +:+ String "." ext)) = Some (Some name).
Proof.
  intros Hn He Hd. unfold publicId, JsString.pop, JsString.index0.
  rewrite split_app, last_app.
  rewrite (split_free "/" (name +:+ String "." ext)).
  - simpl. by rewrite split_app, (split_free "." name).
  - change (String "." ext) with ("." +:+ ext).
    by rewrite !contains_app, Hn, He.
Qed.

(** ** The log *)

Lemma extend_extend es1 es2 w : extend es2 (extend es1 w) = extend (es1 ++ es2) w.
Proof. unfold extend; simpl. by rewrite app_assoc. Qed.

Lemma extend_nil w : extend [] w = w.
Proof. destruct w. unfold extend; simpl. by rewrite app_nil_r. Qed.

Lemma record_extend e es w : extend es (record e w) = extend (e :: es) w.
Proof. unfold record. by rewrite extend_extend. Qed.

(** ** The deletion loop *)

Section Loop.
Context (env : Env).

Lemma all_resolve_cons i imageUrl images :
  all_resolve env i (imageUrl :: images) ↔
  destroy_ok env i (image_target imageUrl) = true ∧ all_resolve env (S i) images.
Proof.
  unfold all_resolve. split.
  - intros H. split.
    + specialize (H 0 imageUrl eq_refl). by rewrite Nat.add_0_r in H.
    + intros j v Hj. specialize (H (S j) v Hj). by rewrite Nat.add_succ_r in H.
  - intros [H0 H] [|j] v Hj; simpl in Hj.
    + injection Hj as <-. by rewrite Nat.add_0_r.
    + rewrite Nat.add_succ_r. by apply (H j v).
Qed.

Lemma destroy_images_step i imageUrl rest w :
  destroy_images env i (imageUrl :: rest) w =
  if destroy_ok env i (image_target imageUrl)
  then destroy_images env (S i) rest (record (EvDestroy (image_target imageUrl)) w)
  else (Rejected (RemoteError (image_target imageUrl)),
        record (EvDestroy (image_target imageUrl)) w).
Proof.
  unfold image_target. destruct (publicId_total imageUrl) as [seg Hseg].
  simpl. unfold bind, or_throw, cloudinary_destroy. rewrite Hseg. simpl.
  by destruct (destroy_ok env i (destroy_target seg)).
Qed.

Lemma destroy_images_resolve images : ∀ i w,
  all_resolve env i images →
  destroy_images env i images w = (Resolved (), extend (destroy_events images) w).
Proof.
  induction images as [|u images IH]; intros i w H.
  - simpl. unfold ret. by rewrite extend_nil.
  - apply all_resolve_cons in H as [H0 H].
    rewrite destroy_images_step, H0, (IH _ _ H).
    by rewrite record_extend.
Qed.

Lemma destroy_images_reject pre : ∀ imageUrl post i w,
  all_resolve env i pre →
  destroy_ok env (i + length pre) (image_target imageUrl) = false →
  destroy_images env i (pre ++ imageUrl :: post) w =
  (Rejected (RemoteError (image_target imageUrl)),
   extend (destroy_events (pre ++ [imageUrl])) w).
Proof.
  induction pre as [|u pre IH]; intros imageUrl post i w Hpre Hfail.
  - simpl in Hfail. rewrite Nat.add_0_r in Hfail.
    simpl app. by rewrite destroy_images_step, Hfail.
  - apply all_resolve_cons in Hpre as [H0 Hpre].
    simpl app. rewrite destroy_images_step, H0.
    rewrite (IH imageUrl post (S i)); [by rewrite record_extend|done|].
    simpl in Hfail. by rewrite Nat.add_succ_r in Hfail.
Qed.

(** The loop either gets through the list or stops at its first rejected
    request. *)
Lemma destroy_images_cases images : ∀ i,
  all_resolve env i images ∨
  ∃ pre imageUrl post,
    images = pre ++ imageUrl :: post ∧ all_resolve env i pre ∧
    destroy_ok env (i + length pre) (image_target imageUrl) = false.
Proof.
  induction images as [|u images IH]; intros i.
  - left. intros j v Hj. by destruct j.
  - destruct (destroy_ok env i (image_target u)) eqn:H0.
    + destruct (IH (S i)) as [H|(pre & v & post & -> & Hpre & Hfail)].
      * left. by apply all_resolve_cons.
      * right. exists (u :: pre), v, post. split; [done|]. split.
        -- by apply all_resolve_cons.
        -- simpl. by rewrite Nat.add_succ_r.
    + right. exists [], u, images. split; [done|]. split.
      * intros j v Hj. by destruct j.
      * simpl. by rewrite Nat.add_0_r.
Qed.

End Loop.

(** ** What each handler does, case by case *)

Section Handlers.
Context (env : Env).

Lemma Car_findOne_ok id uid w :
  store_ok env CarFindOne = true →
  Car_findOne env id uid w
  = (Resolved (owned id uid (cars w)), record (EvStore CarFindOne) w).
Proof. intros H. unfold Car_findOne. unfold_async. by rewrite H. Qed.

Lemma Car_findOne_fault id uid w :
  store_ok env CarFindOne = false →
  Car_findOne env id uid w
  = (Rejected (StoreError CarFindOne), record (EvStore CarFindOne) w).
Proof. intros H. unfold Car_findOne. unfold_async. by rewrite H. Qed.

Lemma get_car_found req user w :
  store_ok env CarFindOne = true →
  get_car env req user w
  = (match owned (req_params_id req) (user_id user) (cars w) with
     | Some car => res 200 (JsonCar car)
     | None => not_found
     end, record (EvStore CarFindOne) w).
Proof.
  intros H. unfold get_car, try_catch, bind at 1.
  rewrite (Car_findOne_ok _ _ _ H).
  by destruct (owned _ _ _).
Qed.

Lemma update_car_missing req user w :
  store_ok env CarFindOne = true →
  owned (req_params_id req) (user_id user) (cars w) = None →
  update_car env req user w = (not_found, record (EvStore CarFindOne) w).
Proof.
  intros H Hnone. unfold update_car, try_catch, bind at 1.
  by rewrite (Car_findOne_ok _ _ _ H), Hnone.
Qed.

Lemma delete_car_missing req user w :
  store_ok env CarFindOne = true →
  owned (req_params_id req) (user_id user) (cars w) = None →
  delete_car env req user w = (not_found, record (EvStore CarFindOne) w).
Proof.
  intros H Hnone. unfold delete_car, try_catch, bind at 1.
  by rewrite (Car_findOne_ok _ _ _ H), Hnone.
Qed.

(** An update that finds its record goes one of four ways. *)
Lemma update_car_found req user w car :
  store_ok env CarFindOne = true →
  owned (req_params_id req) (user_id user) (cars w) = Some car →
  update_car env req user w =
  match reconcile (body_existingImages (req_body req)) (req_files req) with
  | Rejected _ =>
      (res 500 (JsonError "Error updating car"), record (EvStore CarFindOne) w)
  | Resolved v =>
      match cast_images env v with
      | None =>
          (res 500 (JsonError "Error updating car"),
           record (EvStore CarFindOne) w)
      | Some images =>
          if store_ok env CarFindOneAndUpdate
          then let car' := apply_update (update_of req v) images car in
               (res 200 (JsonCar car'),
                set_cars (<[req_params_id req := car']> (cars w))
                  (extend [EvStore CarFindOne; EvStore CarFindOneAndUpdate] w))
          else (res 500 (JsonError "Error updating car"),
                extend [EvStore CarFindOne; EvStore CarFindOneAndUpdate] w)
      end
  end.
Proof.
  intros H Hcar. unfold update_car, try_catch, bind at 1.
  rewrite (Car_findOne_ok _ _ _ H), Hcar.
  unfold bind at 1, settle.
  destruct (reconcile _ _) as [v|e]; [|done].
  unfold Car_findOneAndUpdate. unfold_async. simpl.
  destruct (cast_images env v) as [images|]; [|done].
  destruct (store_ok env CarFindOneAndUpdate); simpl.
  - rewrite Hcar. f_equal. same_world.
  - f_equal. same_world.
Qed.

Lemma update_car_fault req user w :
  store_ok env CarFindOne = false →
  update_car env req user w
  = (res 500 (JsonError "Error updating car"), record (EvStore CarFindOne) w).
Proof.
  intros H. unfold update_car, try_catch, bind at 1.
  by rewrite (Car_findOne_fault _ _ _ H).
Qed.

(** A delete that finds its record stops at the first rejected deletion
    request, or goes on to the collection. *)
Lemma delete_car_rejected req user w car pre imageUrl post :
  store_ok env CarFindOne = true →
  owned (req_params_id req) (user_id user) (cars w) = Some car →
  car_images car = pre ++ imageUrl :: post →
  all_resolve env 0 pre →
  destroy_ok env (length pre) (image_target imageUrl) = false →
  delete_car env req user w =
  (res 500 (JsonError "Error deleting car"),
   extend (EvStore CarFindOne :: destroy_events (pre ++ [imageUrl])) w).
Proof.
  intros H Hcar Himgs Hpre Hfail. unfold delete_car, try_catch, bind at 1.
  rewrite (Car_findOne_ok _ _ _ H), Hcar. unfold bind at 1.
  rewrite Himgs, (destroy_images_reject env pre imageUrl post 0 _ Hpre Hfail).
  by rewrite record_extend.
Qed.

Lemma delete_car_resolved req user w car :
  store_ok env CarFindOne = true →
  owned (req_params_id req) (user_id user) (cars w) = Some car →
  all_resolve env 0 (car_images car) →
  delete_car env req user w =
  let es := EvStore CarFindOne :: destroy_events (car_images car)
            ++ [EvStore CarFindOneAndDelete] in
  if store_ok env CarFindOneAndDelete
  then (res 200 (JsonMessage "Car deleted successfully"),
        set_cars (delete (req_params_id req) (cars w)) (extend es w))
  else (res 500 (JsonError "Error deleting car"), extend es w).
Proof.
  intros H Hcar Hall. unfold delete_car, try_catch, bind at 1.
  rewrite (Car_findOne_ok _ _ _ H), Hcar. unfold bind at 1.
  rewrite (destroy_images_resolve env _ 0 _ Hall), record_extend.
  unfold Car_findOneAndDelete. unfold_async. simpl.
  destruct (store_ok env CarFindOneAndDelete); simpl.
  - rewrite Hcar. f_equal. same_world.
  - f_equal. same_world.
Qed.

Lemma create_car_saved req user w :
  store_ok env CarSave = true →
  cars w !! new_id env = None →
  create_car env req user w =
  let newCar := {| car_id := new_id env;
                   car_title := body_title (req_body req);
                   car_description := body_description (req_body req);
                   car_tags := default [] (body_tags (req_body req));
                   car_images := match req_files req with
                                 | Some fs => paths fs
                                 | None => []
                                 end;
                   car_user := user_id user |} in
  (res 201 (JsonCar newCar),
   set_cars (<[new_id env := newCar]> (cars w)) (record (EvStore CarSave) w)).
Proof.
  intros H Hfresh. unfold create_car, Car_save. unfold_async.
  rewrite H. simpl. by rewrite Hfresh.
Qed.

(** Whatever happens, a create answers 201 or 500. *)
Lemma create_car_status req user w :
  status (create_car env req user w).1 = 201 →
  store_ok env CarSave = true ∧ cars w !! new_id env = None.
Proof.
  unfold create_car, Car_save. unfold_async.
  destruct (store_ok env CarSave); simpl; [|done].
  by destruct (cars w !! new_id env).
Qed.

End Handlers.

Section Reconciliation.
Context (env : Env).

Lemma reconcile_retained req retained :
  JSON.parse (JsString.or_else (body_existingImages (req_body req)) "[]")
  = Some (JArr (JStr <$> retained)) →
  reconcile (body_existingImages (req_body req)) (req_files req)
  = Resolved (JArr (JStr <$> (retained ++ uploaded_urls req))).
Proof.
  intros Hparse. unfold reconcile, uploaded_urls. rewrite Hparse.
  destruct (req_files req) as [[|f fs]|]; simpl.
  - by rewrite app_nil_r.
  - by rewrite fmap_app.
  - by rewrite app_nil_r.
Qed.

(** An update whose [existingImages] names the URLs [retained], on a
    record it finds and with the store answering, leaves the record with
    [retained] followed by the uploaded URLs. *)
Lemma update_car_retained req user w car retained :
  store_ok env CarFindOne = true →
  store_ok env CarFindOneAndUpdate = true →
  owned (req_params_id req) (user_id user) (cars w) = Some car →
  JSON.parse (JsString.or_else (body_existingImages (req_body req)) "[]")
  = Some (JArr (JStr <$> retained)) →
  cast_images env (JArr (JStr <$> (retained ++ uploaded_urls req)))
  = Some (retained ++ uploaded_urls req) →
  ∃ car',
    update_car env req user w
    = (res 200 (JsonCar car'),
       set_cars (<[req_params_id req := car']> (cars w))
         (extend [EvStore CarFindOne; EvStore CarFindOneAndUpdate] w)) ∧
    car_images car' = retained ++ uploaded_urls req.
Proof.
  intros H1 H2 Hcar Hparse Hcast.
  rewrite (update_car_found env req user w car H1 Hcar).
  rewrite (reconcile_retained req retained Hparse), Hcast, H2.
  eexists. split; reflexivity.
Qed.

Lemma update_car_unparsable req user w car :
  owned (req_params_id req) (user_id user) (cars w) = Some car →
  reconcile (body_existingImages (req_body req)) (req_files req)
  = Rejected SyntaxError ∨
  reconcile (body_existingImages (req_body req)) (req_files req)
  = Rejected TypeError →
  update_car env req user w
  = (res 500 (JsonError "Error updating car"), record (EvStore CarFindOne) w).
Proof.
  intros Hcar Hrej. destruct (store_ok env CarFindOne) eqn:H1.
  - rewrite (update_car_found env req user w car H1 Hcar).
    by destruct Hrej as [-> | ->].
  - by apply update_car_fault.
Qed.

(** C1: on a record the caller owns, with [existingImages] absent, empty
    or the serialized list of the URLs [retained], with the store
    answering and the uploads of the request new (the storage gives each
    a URL that is not on the record), the update succeeds and the record's
    images are [retained] followed by the URLs of the uploaded files, in
    that order; a URL that was on the record and is absent from
    [retained] is no longer on it. *)
Theorem update_images_reconciled req user w car retained :
  store_ok env CarFindOne = true →
  store_ok env CarFindOneAndUpdate = true →
  owned (req_params_id req) (user_id user) (cars w) = Some car →
  JSON.parse (JsString.or_else (body_existingImages (req_body req)) "[]")
  = Some (JArr (JStr <$> retained)) →
  cast_images env (JArr (JStr <$> (retained ++ uploaded_urls req)))
  = Some (retained ++ uploaded_urls req) →
  (∀ url, url ∈ uploaded_urls req → url ∉ car_images car) →
  ∃ car',
    (update_car env req user w).1 = res 200 (JsonCar car') ∧
    cars (update_car env req user w).2 !! req_params_id req = Some car' ∧
    car_images car' = retained ++ uploaded_urls req ∧
    ∀ url, url ∈ car_images car → url ∉ retained → url ∉ car_images car'.
Proof.
  intros H1 H2 Hcar Hparse Hcast Hfresh.
  destruct (update_car_retained req user w car retained H1 H2 Hcar Hparse Hcast)
    as (car' & -> & Himgs).
  exists car'. simpl. split; [done|]. split; [by rewrite lookup_insert_eq|].
  split; [done|]. intros url Hold Hr. rewrite Himgs.
  intros [?|Hnew]%elem_of_app; [done|]. by apply (Hfresh url).
Qed.

(** C9: with no [existingImages] field the retained list is empty, not
    an error: on a record the caller owns and with the store answering,
    the update succeeds and the record's images are the uploaded URLs
    alone; with no uploaded file either, the record is left with no image,
    whatever it had. *)
Theorem update_without_existingImages req user w car :
  store_ok env CarFindOne = true →
  store_ok env CarFindOneAndUpdate = true →
  owned (req_params_id req) (user_id user) (cars w) = Some car →
  body_existingImages (req_body req) = None →
  cast_images env (JArr (JStr <$> uploaded_urls req)) = Some (uploaded_urls req) →
  reconcile None (req_files req) = Resolved (JArr (JStr <$> uploaded_urls req)) ∧
  ∃ car',
    (update_car env req user w).1 = res 200 (JsonCar car') ∧
    cars (update_car env req user w).2 !! req_params_id req = Some car' ∧
    car_images car' = uploaded_urls req ∧
    (uploaded_urls req = [] → car_images car' = []).
Proof.
  intros H1 H2 Hcar Hnone Hcast.
  assert (Hparse :
    JSON.parse (JsString.or_else (body_existingImages (req_body req)) "[]")
    = Some (JArr (JStr <$> []))) by (by rewrite Hnone).
  split.
  { pose proof (reconcile_retained req [] Hparse) as Hr.
    by rewrite Hnone in Hr. }
  destruct (update_car_retained req user w car [] H1 H2 Hcar Hparse Hcast)
    as (car' & -> & Himgs).
  exists car'. simpl. split; [done|]. split; [by rewrite lookup_insert_eq|].
  split; [done|]. intros Hno. by rewrite Himgs, Hno.
Qed.

(** C7, as the code has it: on a record the caller owns, an
    [existingImages] text that is not empty and that [JSON.parse] rejects,
    or that parses to a value that cannot be spread while files were
    uploaded, makes the update answer 500 with the generic message; the
    collection is as it was and no write was issued. *)
Theorem update_unparsable_fails req user w car text :
  owned (req_params_id req) (user_id user) (cars w) = Some car →
  body_existingImages (req_body req) = Some text →
  text ≠ EmptyString →
  (JSON.parse text = None ∨
   ∃ v f fs, JSON.parse text = Some v ∧ JSON.spread v = None ∧
             req_files req = Some (f :: fs)) →
  update_car env req user w
  = (res 500 (JsonError "Error updating car"), record (EvStore CarFindOne) w) ∧
  cars (update_car env req user w).2 = cars w.
Proof.
  intros Hcar Htext Hne Hbad.
  assert (Hupd : update_car env req user w
    = (res 500 (JsonError "Error updating car"), record (EvStore CarFindOne) w)).
  { apply (update_car_unparsable req user w car Hcar).
    unfold reconcile. rewrite Htext.
    destruct text as [|c t]; [done|]. simpl JsString.or_else.
    destruct Hbad as [-> | (v & f & fs & -> & Hs & ->)]; [by left|].
    right. by rewrite Hs. }
  split; [done|]. by rewrite Hupd.
Qed.

(** C10: the lookup comes first.  When the store answers and holds no
    record with this id owned by the caller, the update answers 404
    whatever [existingImages] is, and nothing is written; the same body,
    when its text does not parse, gets 500 once the record is there. *)
Theorem update_not_found_before_parse req user w :
  store_ok env CarFindOne = true →
  owned (req_params_id req) (user_id user) (cars w) = None →
  update_car env req user w = (not_found, record (EvStore CarFindOne) w) ∧
  status not_found = 404 ∧
  ∀ w' car,
    owned (req_params_id req) (user_id user) (cars w') = Some car →
    JSON.parse (JsString.or_else (body_existingImages (req_body req)) "[]") = None →
    status (update_car env req user w').1 = 500.
Proof.
  intros H1 Hnone. split; [by apply update_car_missing|]. split; [done|].
  intros w' car Hcar Hparse.
  rewrite (update_car_unparsable req user w' car Hcar); [done|].
  left. unfold reconcile. by rewrite Hparse.
Qed.

End Reconciliation.

Section Records.
Context (env : Env).

Lemma owned_other id uid m car :
  m !! id = Some car → car_user car ≠ uid → owned id uid m = None.
Proof. intros Hm Hne. unfold owned. rewrite Hm. by case_decide. Qed.

Lemma owned_absent id uid m : m !! id = None → owned id uid m = None.
Proof. intros Hm. unfold owned. by rewrite Hm. Qed.

Lemma owned_lookup id uid m car :
  owned id uid m = Some car → m !! id = Some car ∧ car_user car = uid.
Proof.
  unfold owned. destruct (m !! id) as [c|]; [|done].
  case_decide; [|done]. by intros [= ->].
Qed.


(** C3: a record of another identity looks like no record.  When the
    store answers, Get, Update and Delete by [caller] on the id of a
    record owned by someone else answer 404 with the body they give for an
    id the collection does not hold; the collection is as it was, nothing
    was written and no deletion request was sent. *)
Theorem ownership_isolation req caller w car :
  cars w !! req_params_id req = Some car →
  car_user car ≠ user_id caller →
  store_ok env CarFindOne = true →
  let seen := record (EvStore CarFindOne) w in
  get_car env req caller w = (not_found, seen) ∧
  update_car env req caller w = (not_found, seen) ∧
  delete_car env req caller w = (not_found, seen) ∧
  status not_found = 404 ∧
  cars seen !! req_params_id req = Some car ∧
  ∀ w0, cars w0 !! req_params_id req = None →
    (get_car env req caller w0).1 = not_found ∧
    (update_car env req caller w0).1 = not_found ∧
    (delete_car env req caller w0).1 = not_found.
Proof.
  intros Hcar Hne H1 seen.
  pose proof (owned_other _ _ _ _ Hcar Hne) as Hnone.
  split; [by rewrite (get_car_found env req caller w H1), Hnone|].
  split; [by apply update_car_missing|].
  split; [by apply delete_car_missing|].
  split; [done|]. split; [done|].
  intros w0 Habs. pose proof (owned_absent _ (user_id caller) _ Habs) as Hnone0.
  split; [by rewrite (get_car_found env req caller w0 H1), Hnone0|].
  split; [by rewrite (update_car_missing env req caller w0 H1 Hnone0)|].
  by rewrite (delete_car_missing env req caller w0 H1 Hnone0).
Qed.

(** C4: a create answered 201 returns the record it saved; its [user] is
    the id of the caller, and its images are the paths of the uploaded
    files, one per file and in their order (none when there is no file). *)
Theorem create_returns_owned_record req user w :
  status (create_car env req user w).1 = 201 →
  ∃ car,
    (create_car env req user w).1 = res 201 (JsonCar car) ∧
    cars (create_car env req user w).2 !! car_id car = Some car ∧
    car_user car = user_id user ∧
    car_images car = uploaded_urls req ∧
    (∀ fs, req_files req = Some fs →
       length (car_images car) = length fs ∧
       ∀ i, car_images car !! i = path <$> fs !! i) ∧
    (req_files req = None ∨ req_files req = Some [] → car_images car = []).
Proof.
  intros Hst. apply create_car_status in Hst as [H1 Hfresh].
  rewrite (create_car_saved env req user w H1 Hfresh).
  eexists. split; [reflexivity|]. simpl.
  split; [by rewrite lookup_insert_eq|]. split; [done|]. split; [done|].
  split.
  - intros fs ->. unfold paths. split; [by rewrite length_fmap|].
    intros i. by rewrite list_lookup_fmap.
  - by intros [-> | ->].
Qed.

End Records.

Lemma answers_ret (P : Response → Prop) r : P r → answers P (ret r).
Proof. intros HP w r' w' [= <- _]. done. Qed.

Lemma answers_bind {A} (P : Response → Prop) (m : Async A) k :
  (∀ a, answers P (k a)) → answers P (bind m k).
Proof.
  intros Hk w r w'. unfold bind. destruct (m w) as [[a|e] w1]; [|done].
  apply Hk.
Qed.

Lemma answers_try_catch (P : Response → Prop) body on_error w :
  answers P body → (∀ e, P (on_error e)) → P (try_catch body on_error w).1.
Proof.
  intros Hb He. unfold try_catch. specialize (Hb w).
  destruct (body w) as [[r|e] w']; simpl; [by eapply Hb|apply He].
Qed.

Section GateAndDelete.
Context (env : Env).

(** None of the five handlers answers 401. *)
Lemma car_handlers_not_401 req h user w :
  h ∈ car_handlers env req → not_401 (h user w).1.
Proof.
  unfold car_handlers. rewrite !elem_of_cons, elem_of_nil.
  intros [->|[->|[->|[->|[->|[]]]]]];
    unfold create_car, update_car, delete_car, list_cars, get_car; cbv zeta;
    (apply (answers_try_catch not_401); [|done]).
  - apply answers_bind; intros ?. by apply answers_ret.
  - apply answers_bind; intros [car|]; [|by apply answers_ret].
    apply answers_bind; intros ?. apply answers_bind; intros ?.
    by apply answers_ret.
  - apply answers_bind; intros [car|]; [|by apply answers_ret].
    apply answers_bind; intros ?. apply answers_bind; intros ?.
    by apply answers_ret.
  - apply answers_bind; intros ?. by apply answers_ret.
  - apply answers_bind; intros [car|]; by apply answers_ret.
Qed.

Lemma bearer_token_absent req :
  req_authorization req = None → bearer_token req = None.
Proof. intros H. unfold bearer_token. by rewrite H. Qed.

(** The middleware, step by step. *)
Lemma authMiddleware_steps req next w :
  authMiddleware env req next w =
  match bearer_token req with
  | Some (String c t) =>
      match jwt_verify env (String c t) with
      | None => (unauthorized "Invalid token", w)
      | Some sub =>
          let w' := record (EvStore UserFindById) w in
          if store_ok env UserFindById
          then match sub ≫= (λ i, users w !! i) with
               | Some u => next u w'
               | None => (unauthorized "User not found", w')
               end
          else (unauthorized "Invalid token", w')
      end
  | _ => (unauthorized "Authorization required", w)
  end.
Proof.
  unfold authMiddleware.
  destruct (bearer_token req) as [[|c t]|]; [done| |done].
  unfold try_catch, bind at 1, or_throw.
  destruct (jwt_verify env (String c t)) as [sub|]; [|done].
  unfold ret at 1, bind at 1, User_findById, bind at 1, store_call.
  destruct (store_ok env UserFindById); [|done].
  unfold gets. simpl.
  destruct (sub ≫= _) as [u|]; [|done].
  unfold run. by destruct (next u _).
Qed.

(** Either the middleware answers 401 by itself, whatever follows it in
    the chain, or it hands the request over with the identity it
    resolved. *)
Lemma authMiddleware_cases req w :
  (∃ r w', status r = 401 ∧ ∀ next, authMiddleware env req next w = (r, w')) ∨
  (∃ u w', ∀ next, authMiddleware env req next w = next u w').
Proof.
  destruct (bearer_token req) as [[|c t]|] eqn:Htok.
  1,3: left; eexists _, _; split;
       [|intros next; rewrite authMiddleware_steps, Htok; reflexivity]; done.
  destruct (jwt_verify env (String c t)) as [sub|] eqn:Hjwt.
  2: left; eexists _, _; split;
     [|intros next; rewrite authMiddleware_steps, Htok, Hjwt; reflexivity]; done.
  destruct (store_ok env UserFindById) eqn:H1.
  2: left; eexists _, _; split;
     [|intros next; rewrite authMiddleware_steps, Htok, Hjwt; simpl;
       rewrite H1; reflexivity]; done.
  destruct (sub ≫= (λ i, users w !! i)) as [u|] eqn:Hu.
  - right. exists u, (record (EvStore UserFindById) w). intros next.
    rewrite authMiddleware_steps, Htok, Hjwt. simpl. by rewrite H1, Hu.
  - left; eexists _, _; split;
     [|intros next; rewrite authMiddleware_steps, Htok, Hjwt; simpl;
       rewrite H1, Hu; reflexivity]; done.
Qed.


(** C5: the gate in front of every car endpoint.  Without an
    [Authorization] header the answer is 401 "Authorization required";
    with a token that [jwt.verify] rejects it is 401 "Invalid token"; in
    both cases the world is untouched, so no collection was called.  With
    a token whose subject matches no user, the store answering, it is 401
    "User not found".  None of these depends on what follows in the
    chain, and whenever an endpoint answers 401 its handler was not run:
    any other handler in its place gives the same answer and world. *)
Theorem auth_rejects_before_handler req w (next : User → Handler) :
  (req_authorization req = None →
   authMiddleware env req next w = (unauthorized "Authorization required", w)) ∧
  (∀ token, bearer_token req = Some token → token ≠ EmptyString →
     jwt_verify env token = None →
     authMiddleware env req next w = (unauthorized "Invalid token", w)) ∧
  (∀ token sub, bearer_token req = Some token → token ≠ EmptyString →
     jwt_verify env token = Some sub →
     store_ok env UserFindById = true →
     sub ≫= (λ i, users w !! i) = None →
     authMiddleware env req next w
     = (unauthorized "User not found", record (EvStore UserFindById) w)) ∧
  (∀ msg, status (unauthorized msg) = 401) ∧
  (∀ h, h ∈ car_handlers env req →
     status (authMiddleware env req h w).1 = 401 →
     authMiddleware env req next w = authMiddleware env req h w).
Proof.
  split; [|split; [|split; [|split]]].
  - intros Habs. by rewrite authMiddleware_steps, (bearer_token_absent req Habs).
  - intros token Htok Hne Hbad. rewrite authMiddleware_steps, Htok.
    destruct token as [|c t]; [done|]. by rewrite Hbad.
  - intros token sub Htok Hne Hsub H1 Hnone. rewrite authMiddleware_steps, Htok.
    destruct token as [|c t]; [done|]. rewrite Hsub. simpl. by rewrite H1, Hnone.
  - done.
  - intros h Hh Hst.
    destruct (authMiddleware_cases req w) as [(r & w' & _ & Hsame)|(u & w' & Hrun)].
    + by rewrite !Hsame.
    + rewrite Hrun in Hst. by apply (car_handlers_not_401 req h u w') in Hh.
Qed.

(** C2: a delete on a record the caller owns, with the lookup answered.
    The deletion requests go out one by one in the order of the record's
    images.  If the request for [imageUrl] is the first to be rejected,
    the answer is 500, the requests sent are those up to [imageUrl] and
    none after it, the collection is as it was, and a Get by the owner
    still returns the record.  And if the record is gone after the
    delete, every request was sent and resolved before the collection was
    asked to remove it. *)
Theorem delete_all_or_nothing req user w car :
  store_ok env CarFindOne = true →
  owned (req_params_id req) (user_id user) (cars w) = Some car →
  (∀ pre imageUrl post,
     car_images car = pre ++ imageUrl :: post →
     all_resolve env 0 pre →
     destroy_ok env (length pre) (image_target imageUrl) = false →
     delete_car env req user w
     = (res 500 (JsonError "Error deleting car"),
        extend (EvStore CarFindOne :: destroy_events (pre ++ [imageUrl])) w) ∧
     cars (delete_car env req user w).2 = cars w ∧
     (get_car env req user (delete_car env req user w).2).1
     = res 200 (JsonCar car)) ∧
  (cars (delete_car env req user w).2 !! req_params_id req = None →
   all_resolve env 0 (car_images car) ∧
   log (delete_car env req user w).2
   = log w ++ EvStore CarFindOne :: destroy_events (car_images car)
       ++ [EvStore CarFindOneAndDelete]).
Proof.
  intros H1 Hcar. split.
  - intros pre imageUrl post Himgs Hpre Hfail.
    rewrite (delete_car_rejected env req user w car pre imageUrl post
               H1 Hcar Himgs Hpre Hfail).
    split; [done|]. split; [done|]. simpl.
    rewrite (get_car_found env req user _ H1). simpl. by rewrite Hcar.
  - intros Hgone.
    destruct (destroy_images_cases env (car_images car) 0)
      as [Hall|(pre & imageUrl & post & Himgs & Hpre & Hfail)].
    + split; [done|].
      rewrite (delete_car_resolved env req user w car H1 Hcar Hall) in Hgone |- *.
      simpl. by destruct (store_ok env CarFindOneAndDelete).
    + rewrite (delete_car_rejected env req user w car pre imageUrl post
                 H1 Hcar Himgs Hpre Hfail) in Hgone.
      simpl in Hgone. apply owned_lookup in Hcar as [Hcar _]. congruence.
Qed.

End GateAndDelete.

(** ** The deployment of [Scenario] *)

Lemma string_array_urls (urls : list string) :
  Scenario.string_array (JArr (JStr <$> urls)) = Some urls.
Proof.
  unfold Scenario.string_array. induction urls as [|u urls IH]; [done|].
  rewrite fmap_cons. cbn [mapM]. rewrite IH. done.
Qed.

(** The update of the specification's scenario, through the middleware:
    one retained URL and one uploaded file. *)
Example router_put_scenario :
  let req := Scenario.on_car "car1" (Some "Bearer token-alice")
               (Scenario.edit (Some ("[" +:+ JSON.quoted "urlA" +:+ "]")))
               (Some [Scenario.upload "side.png" Scenario.url_side]) in
  ∃ car',
    (router_put Scenario.env req Scenario.world).1 = res 200 (JsonCar car') ∧
    car_images car' = ["urlA"; Scenario.url_side].
Proof. eexists. split; vm_compute; reflexivity. Qed.

Ltac decided := compute_done.

Lemma update_images_reconciled_witness :
  ∃ car',
    (update_car Scenario.env
       (Scenario.on_car "car1" None
          (Scenario.edit (Some ("[" +:+ JSON.quoted Scenario.url_front +:+ "]")))
          (Some [Scenario.upload "side.png" Scenario.url_side]))
       Scenario.alice Scenario.world).1 = res 200 (JsonCar car') ∧
    car_images car' = [Scenario.url_front; Scenario.url_side] ∧
    Scenario.url_rear ∉ car_images car'.
Proof.
  destruct (update_images_reconciled Scenario.env
              (Scenario.on_car "car1" None
                 (Scenario.edit (Some ("[" +:+ JSON.quoted Scenario.url_front +:+ "]")))
                 (Some [Scenario.upload "side.png" Scenario.url_side]))
              Scenario.alice Scenario.world Scenario.tesla [Scenario.url_front]
              eq_refl eq_refl eq_refl eq_refl eq_refl)
    as (car' & Hres & _ & Himgs & Hdrop).
  { intros url ->%list_elem_of_singleton. decided. }
  exists car'. split; [exact Hres|]. split; [exact Himgs|].
  apply Hdrop; decided.
Defined.

(** C7, as it is stated, fails: an [existingImages] field that is there
    and holds the empty text, which is no serialized list, is replaced by
    the default; the update answers 200 and empties the image list. *)
Lemma update_empty_existingImages_succeeds :
  ¬ (∀ env req user w car text,
       owned (req_params_id req) (user_id user) (cars w) = Some car →
       body_existingImages (req_body req) = Some text →
       (∀ elems, JSON.parse text ≠ Some (JArr elems)) →
       status (update_car env req user w).1 = 500 ∧
       cars (update_car env req user w).2 = cars w).
Proof.
  intros H.
  destruct (H Scenario.env
              (Scenario.on_car "car1" None (Scenario.edit (Some EmptyString)) (Some []))
              Scenario.alice Scenario.world Scenario.tesla EmptyString
              eq_refl eq_refl) as [Hst _]; [done|].
  vm_compute in Hst. discriminate Hst.
Qed.

(** A text that parses to a string is spread character by character. *)
Example update_existingImages_string :
  let req := Scenario.on_car "car1" None
               (Scenario.edit (Some (JSON.quoted "ab")))
               (Some [Scenario.upload "side.png" "u"]) in
  ∃ car', (update_car Scenario.env req Scenario.alice Scenario.world).1
          = res 200 (JsonCar car') ∧
          car_images car' = ["a"; "b"; "u"].
Proof. eexists. split; vm_compute; reflexivity. Qed.

Lemma update_unparsable_fails_witness :
  let req := Scenario.on_car "car1" None (Scenario.edit (Some "[urlA]")) None in
  (update_car Scenario.env req Scenario.alice Scenario.world).1
  = res 500 (JsonError "Error updating car") ∧
  cars (update_car Scenario.env req Scenario.alice Scenario.world).2
  = cars Scenario.world.
Proof.
  intros req.
  destruct (update_unparsable_fails Scenario.env req Scenario.alice
              Scenario.world Scenario.tesla "[urlA]" eq_refl eq_refl)
    as [Hupd Hcars]; [discriminate|by left|].
  split; [by rewrite Hupd|exact Hcars].
Defined.

Lemma update_without_existingImages_witness :
  let req := Scenario.on_car "car1" None (Scenario.edit None) None in
  ∃ car',
    (update_car Scenario.env req Scenario.alice Scenario.world).1
    = res 200 (JsonCar car') ∧
    car_images car' = [].
Proof.
  intros req.
  destruct (update_without_existingImages Scenario.env req Scenario.alice
              Scenario.world Scenario.tesla eq_refl eq_refl eq_refl eq_refl eq_refl)
    as (_ & car' & Hres & _ & _ & Hnone).
  exists car'. split; [exact Hres|]. by apply Hnone.
Defined.

Lemma update_not_found_before_parse_witness :
  let req := Scenario.on_car "car1" None (Scenario.edit (Some "[urlA]")) None in
  (update_car Scenario.env req Scenario.bob Scenario.world).1 = not_found ∧
  ∀ w car, owned "car1" "bob" (cars w) = Some car →
           status (update_car Scenario.env req Scenario.bob w).1 = 500.
Proof.
  intros req.
  destruct (update_not_found_before_parse Scenario.env req Scenario.bob
              Scenario.world eq_refl eq_refl) as (Hupd & _ & Hparse).
  split; [by rewrite Hupd|].
  intros w car Hcar. by apply (Hparse w car).
Defined.


Lemma ownership_isolation_witness :
  let req := Scenario.on_car "car1" None (Scenario.edit None) None in
  (get_car Scenario.env req Scenario.bob Scenario.world).1 = not_found ∧
  (update_car Scenario.env req Scenario.bob Scenario.world).1 = not_found ∧
  (delete_car Scenario.env req Scenario.bob Scenario.world).1 = not_found ∧
  cars (delete_car Scenario.env req Scenario.bob Scenario.world).2 !! "car1"
  = Some Scenario.tesla.
Proof.
  intros req.
  destruct (ownership_isolation Scenario.env req Scenario.bob Scenario.world
              Scenario.tesla eq_refl) as (Hg & Hu & Hd & _ & Hkept & _);
    [discriminate|reflexivity|].
  rewrite Hg, Hu, Hd. by repeat split.
Defined.

Lemma create_returns_owned_record_witness :
  let req := Scenario.on_car EmptyString None (Scenario.edit None)
               (Some [Scenario.upload "front.jpg" Scenario.url_front;
                      Scenario.upload "rear.jpg" Scenario.url_rear]) in
  ∃ car,
    (create_car Scenario.env req Scenario.alice Scenario.world).1
    = res 201 (JsonCar car) ∧
    car_user car = "alice" ∧
    car_images car = [Scenario.url_front; Scenario.url_rear].
Proof.
  intros req.
  destruct (create_returns_owned_record Scenario.env req Scenario.alice
              Scenario.world eq_refl) as (car & Hres & _ & Hu & Himgs & _).
  exists car. by repeat split.
Defined.

Lemma auth_rejects_before_handler_witness :
  let anonymous := Scenario.on_car "car1" None Scenario.no_body None in
  let forged := Scenario.on_car "car1" (Some "Bearer token-mallory")
                  Scenario.no_body None in
  let ghost := Scenario.on_car "car1" (Some "Bearer token-ghost")
                 Scenario.no_body None in
  router_delete Scenario.env anonymous Scenario.world
  = (unauthorized "Authorization required", Scenario.world) ∧
  router_delete Scenario.env forged Scenario.world
  = (unauthorized "Invalid token", Scenario.world) ∧
  router_delete Scenario.env ghost Scenario.world
  = (unauthorized "User not found",
     record (EvStore UserFindById) Scenario.world) ∧
  router_get Scenario.env ghost Scenario.world
  = router_delete Scenario.env ghost Scenario.world.
Proof.
  intros anonymous forged ghost. unfold router_delete, router_get.
  split; [|split; [|split]].
  - by apply (auth_rejects_before_handler Scenario.env anonymous Scenario.world).
  - apply (auth_rejects_before_handler Scenario.env forged Scenario.world
             (delete_car Scenario.env forged)) with (token := "token-mallory");
      [reflexivity|discriminate|reflexivity].
  - apply (auth_rejects_before_handler Scenario.env ghost Scenario.world
             (delete_car Scenario.env ghost))
      with (token := "token-ghost") (sub := Some "ghost");
      [reflexivity|discriminate|reflexivity|reflexivity|reflexivity].
  - apply (auth_rejects_before_handler Scenario.env ghost Scenario.world
             (get_car Scenario.env ghost));
      [unfold car_handlers; set_solver|reflexivity].
Defined.

Lemma delete_all_or_nothing_witness :
  let req := Scenario.on_car "car1" None Scenario.no_body None in
  delete_car Scenario.env_second_rejected req Scenario.alice Scenario.world
  = (res 500 (JsonError "Error deleting car"),
     extend [EvStore CarFindOne; EvDestroy "cars/front"; EvDestroy "cars/rear"]
       Scenario.world) ∧
  (get_car Scenario.env_second_rejected req Scenario.alice
     (delete_car Scenario.env_second_rejected req Scenario.alice
        Scenario.world).2).1
  = res 200 (JsonCar Scenario.tesla) ∧
  log (delete_car Scenario.env req Scenario.alice Scenario.world).2
  = [EvStore CarFindOne; EvDestroy "cars/front"; EvDestroy "cars/rear";
     EvStore CarFindOneAndDelete].
Proof.
  intros req.
  destruct (delete_all_or_nothing Scenario.env_second_rejected req
              Scenario.alice Scenario.world Scenario.tesla eq_refl eq_refl)
    as [Hstop _].
  destruct (Hstop [Scenario.url_front] Scenario.url_rear [] eq_refl)
    as (Hdel & _ & Hget); [|reflexivity|].
  { intros [|j] url Hj; [reflexivity|discriminate Hj]. }
  destruct (delete_all_or_nothing Scenario.env req
              Scenario.alice Scenario.world Scenario.tesla eq_refl eq_refl)
    as [_ Hgone].
  destruct Hgone as [_ Hlog]; [reflexivity|].
  split; [exact Hdel|]. split; [exact Hget|exact Hlog].
Defined.

(** C6, at a URL whose file name has a dot before its extension: the
    final path segment is [front.view.jpg], and the deletion request
    names [cars/front], not [cars/front.view]. *)
Theorem delete_dotted_name_target :
  JsString.pop (JsString.split "/" Scenario.url_dotted) = Some "front.view.jpg" ∧
  publicId Scenario.url_dotted = Some (Some "front") ∧
  log (delete_car Scenario.env
         (Scenario.on_car "car7" None Scenario.no_body None)
         Scenario.alice Scenario.world).2
  = [EvStore CarFindOne; EvDestroy "cars/front"; EvStore CarFindOneAndDelete].
Proof. by vm_compute. Qed.

(** For a final path segment [name.ext] whose [name] has no dot, the
    deletion request names [cars/name]. *)
Lemma image_target_plain dir name ext :
  JsString.contains "/" name = false →
  JsString.contains "/" ext = false →
  JsString.contains "." name = false →
  image_target (dir +:+ String "/" (name +:+ String "." ext)) = "cars/" +:+ name.
Proof.
  intros Hn He Hd. unfold image_target.
  by rewrite (publicId_plain dir name ext Hn He Hd).
Qed.

(** * Beyond the claims *)

(** ** How effects compose *)

Section Keeps.
Context (R : relation World) `{!PreOrder R}.

Lemma keeps_ret {A} (a : A) : keeps R (ret a).
Proof. intros w. simpl. reflexivity. Qed.

Lemma keeps_throw {A} e : keeps R (throw (A:=A) e).
Proof. intros w. simpl. reflexivity. Qed.

Lemma keeps_gets {A} (f : World → A) : keeps R (gets f).
Proof. intros w. simpl. reflexivity. Qed.

Lemma keeps_settle {A} (o : Outcome A) : keeps R (settle o).
Proof. intros w. simpl. reflexivity. Qed.

Lemma keeps_or_throw {A} e (v : option A) : keeps R (or_throw e v).
Proof. destruct v; [apply keeps_ret|apply keeps_throw]. Qed.

Lemma keeps_modify f : (∀ w, R w (f w)) → keeps R (modify f).
Proof. intros Hf w. apply Hf. Qed.

Lemma keeps_bind {A B} (m : Async A) (k : A → Async B) :
  keeps R m → (∀ a, keeps R (k a)) → keeps R (bind m k).
Proof.
  intros Hm Hk w. unfold bind. specialize (Hm w).
  destruct (m w) as [[a|e] w1]; simpl in *; [|done].
  etrans; [exact Hm|apply Hk].
Qed.

Lemma keeps_run h : handler_keeps R h → keeps R (run h).
Proof. intros Hh w. unfold run. specialize (Hh w). by destruct (h w). Qed.

Lemma keeps_try_catch body on_error :
  keeps R body → handler_keeps R (try_catch body on_error).
Proof.
  intros Hb w. unfold try_catch. specialize (Hb w).
  by destruct (body w) as [[r|e] w1].
Qed.

Section Calls.
Context (env : Env) (Hrecord : ∀ e w, R w (record e w)).

Lemma keeps_store_call op : keeps R (store_call env op).
Proof. intros w. unfold store_call. destruct (store_ok env op); apply Hrecord. Qed.

Lemma keeps_cloudinary_destroy i target : keeps R (cloudinary_destroy env i target).
Proof.
  intros w. unfold cloudinary_destroy.
  destruct (destroy_ok env i target); apply Hrecord.
Qed.

Lemma keeps_destroy_images images : ∀ i, keeps R (destroy_images env i images).
Proof.
  induction images as [|u images IH]; intros i; simpl; [apply keeps_ret|].
  apply keeps_bind; [apply keeps_or_throw|intros seg].
  apply keeps_bind; [apply keeps_cloudinary_destroy|intros _]. apply IH.
Qed.

Lemma keeps_User_findById id : keeps R (User_findById env id).
Proof. apply keeps_bind; [apply keeps_store_call|intros _; apply keeps_gets]. Qed.

Lemma keeps_Car_findOne id uid : keeps R (Car_findOne env id uid).
Proof. apply keeps_bind; [apply keeps_store_call|intros _; apply keeps_gets]. Qed.

Lemma keeps_Car_find uid : keeps R (Car_find env uid).
Proof. apply keeps_bind; [apply keeps_store_call|intros _; apply keeps_gets]. Qed.

Lemma keeps_authMiddleware req next :
  (∀ u, handler_keeps R (next u)) → handler_keeps R (authMiddleware env req next).
Proof.
  intros Hnext. unfold authMiddleware.
  destruct (bearer_token req) as [[|c t]|]; try (intros w; simpl; reflexivity).
  apply keeps_try_catch.
  apply keeps_bind; [apply keeps_or_throw|intros decoded].
  apply keeps_bind; [apply keeps_User_findById|intros [u|]];
    [by apply keeps_run|apply keeps_ret].
Qed.

Lemma keeps_upload_array fieldname maxCount req next :
  handler_keeps R next →
  handler_keeps R (upload_array env fieldname maxCount req next).
Proof.
  intros Hnext. unfold upload_array.
  destruct (req_files req) as [fs|]; [|done].
  destruct (_ || _); [|done]. intros w. simpl. reflexivity.
Qed.

Lemma keeps_get_car req user : handler_keeps R (get_car env req user).
Proof.
  apply keeps_try_catch.
  apply keeps_bind; [apply keeps_Car_findOne|intros [car|]]; apply keeps_ret.
Qed.

Lemma keeps_list_cars req user : handler_keeps R (list_cars env req user).
Proof.
  apply keeps_try_catch.
  apply keeps_bind; [apply keeps_Car_find|intros found]; apply keeps_ret.
Qed.

(** The three writing handlers, given that [R] allows a write at the id
    each one writes to. *)
Lemma keeps_create_car req user :
  (∀ car w, R w (set_cars (<[new_id env := car]> (cars w)) w)) →
  handler_keeps R (create_car env req user).
Proof.
  intros Hw. unfold create_car; cbv zeta. apply keeps_try_catch.
  apply keeps_bind; [|intros saved; apply keeps_ret].
  unfold Car_save.
  apply keeps_bind; [apply keeps_store_call|intros _].
  apply keeps_bind; [apply keeps_gets|intros [taken|]]; [apply keeps_throw|].
  apply keeps_bind; [|intros _; apply keeps_ret].
  apply keeps_modify. intros w. apply Hw.
Qed.

Lemma keeps_update_car req user :
  (∀ car w, R w (set_cars (<[req_params_id req := car]> (cars w)) w)) →
  handler_keeps R (update_car env req user).
Proof.
  intros Hw. unfold update_car; cbv zeta. apply keeps_try_catch.
  apply keeps_bind; [apply keeps_Car_findOne|intros [car|]]; [|apply keeps_ret].
  apply keeps_bind; [apply keeps_settle|intros images].
  apply keeps_bind; [|intros updated; apply keeps_ret].
  unfold Car_findOneAndUpdate.
  apply keeps_bind; [apply keeps_or_throw|intros imgs].
  apply keeps_bind; [apply keeps_store_call|intros _].
  apply keeps_bind; [apply keeps_gets|intros [found|]]; [|apply keeps_ret].
  apply keeps_bind; [|intros _; apply keeps_ret].
  apply keeps_modify. intros w. apply Hw.
Qed.

Lemma keeps_delete_car req user :
  (∀ w, R w (set_cars (delete (req_params_id req) (cars w)) w)) →
  handler_keeps R (delete_car env req user).
Proof.
  intros Hw. unfold delete_car; cbv zeta. apply keeps_try_catch.
  apply keeps_bind; [apply keeps_Car_findOne|intros [car|]]; [|apply keeps_ret].
  apply keeps_bind; [apply keeps_destroy_images|intros _].
  apply keeps_bind; [|intros _; apply keeps_ret].
  unfold Car_findOneAndDelete.
  apply keeps_bind; [apply keeps_store_call|intros _].
  apply keeps_bind; [apply keeps_gets|intros [found|]]; [|apply keeps_ret].
  apply keeps_bind; [|intros _; apply keeps_ret].
  apply keeps_modify. intros w. apply Hw.
Qed.

End Calls.
End Keeps.

#[global] Instance grows_preorder : PreOrder grows.
Proof.
  split.
  - intros w. by split.
  - intros w1 w2 w3 [Hu1 Hl1] [Hu2 Hl2]. split; [congruence|by etrans].
Qed.

#[global] Instance same_outside_preorder id : PreOrder (same_outside id).
Proof.
  split.
  - intros w. by split.
  - intros w1 w2 w3 [Hu1 H1] [Hu2 H2]. split; [congruence|].
    intros id' Hne. by rewrite H2, H1.
Qed.

Lemma grows_record e w : grows w (record e w).
Proof. split; [done|]. by apply prefix_app_r. Qed.

Lemma grows_set_cars m w : grows w (set_cars m w).
Proof. by split. Qed.

Lemma same_outside_record id e w : same_outside id w (record e w).
Proof. by split. Qed.

Lemma same_outside_insert id car w :
  same_outside id w (set_cars (<[id := car]> (cars w)) w).
Proof. split; [done|]. intros id' Hne. simpl. by rewrite lookup_insert_ne. Qed.

Lemma same_outside_delete id w :
  same_outside id w (set_cars (delete id (cars w)) w).
Proof. split; [done|]. intros id' Hne. simpl. by rewrite lookup_delete_ne. Qed.

Section Effects.
Context (env : Env).

(** Whatever the token, the body, the files and the outcome of the
    outside calls, no endpoint changes the user collection, and none
    rewrites the log: what was logged stays, in order, at its head. *)
Theorem routes_keep_users_and_log route req w :
  route ∈ routes env →
  users (route req w).2 = users w ∧ log w `prefix_of` log (route req w).2.
Proof.
  unfold routes. rewrite !elem_of_cons, elem_of_nil.
  intros [->|[->|[->|[->|[->|[]]]]]];
    apply (keeps_authMiddleware grows env grows_record); intros u.
  - apply keeps_upload_array; [apply _|].
    apply (keeps_create_car grows env grows_record).
    intros; apply grows_set_cars.
  - apply keeps_upload_array; [apply _|].
    apply (keeps_update_car grows env grows_record).
    intros; apply grows_set_cars.
  - apply (keeps_delete_car grows env grows_record).
    intros; apply grows_set_cars.
  - apply (keeps_list_cars grows env grows_record).
  - apply (keeps_get_car grows env grows_record).
Qed.

(** An update or a delete touches no record but the one the request
    names, and a create none but the one with the new id, whatever the
    outcome. *)
Theorem writes_touch_one_record req user w id' :
  (id' ≠ req_params_id req →
   cars (update_car env req user w).2 !! id' = cars w !! id' ∧
   cars (delete_car env req user w).2 !! id' = cars w !! id') ∧
  (id' ≠ new_id env →
   cars (create_car env req user w).2 !! id' = cars w !! id').
Proof.
  split.
  - intros Hne. split.
    + apply (keeps_update_car (same_outside (req_params_id req)) env
               (same_outside_record _));
        [intros; apply same_outside_insert|done].
    + apply (keeps_delete_car (same_outside (req_params_id req)) env
               (same_outside_record _));
        [intros; apply same_outside_delete|done].
  - intros Hne.
    apply (keeps_create_car (same_outside (new_id env)) env
             (same_outside_record _));
      [intros; apply same_outside_insert|done].
Qed.

End Effects.

Section More.
Context (env : Env).

(** Each handler answers only the statuses its documentation block
    lists: 201 or 500 for a create, 200, 404 or 500 for an update, a
    delete and a get, 200 or 500 for the list. *)
Theorem handlers_answer_documented_statuses req user w :
  status (create_car env req user w).1 ∈ [201; 500] ∧
  status (update_car env req user w).1 ∈ [200; 404; 500] ∧
  status (delete_car env req user w).1 ∈ [200; 404; 500] ∧
  status (list_cars env req user w).1 ∈ [200; 500] ∧
  status (get_car env req user w).1 ∈ [200; 404; 500].
Proof.
  repeat split;
    unfold create_car, update_car, delete_car, list_cars, get_car; cbv zeta.
  - apply (answers_try_catch (λ r, status r ∈ [201; 500])); [|set_solver].
    apply answers_bind; intros ?. apply answers_ret. set_solver.
  - apply (answers_try_catch (λ r, status r ∈ [200; 404; 500])); [|set_solver].
    apply answers_bind; intros [car|]; [|apply answers_ret; set_solver].
    apply answers_bind; intros ?. apply answers_bind; intros ?.
    apply answers_ret. set_solver.
  - apply (answers_try_catch (λ r, status r ∈ [200; 404; 500])); [|set_solver].
    apply answers_bind; intros [car|]; [|apply answers_ret; set_solver].
    apply answers_bind; intros ?. apply answers_bind; intros ?.
    apply answers_ret. set_solver.
  - apply (answers_try_catch (λ r, status r ∈ [200; 500])); [|set_solver].
    apply answers_bind; intros ?. apply answers_ret. set_solver.
  - apply (answers_try_catch (λ r, status r ∈ [200; 404; 500])); [|set_solver].
    apply answers_bind; intros [car|]; apply answers_ret; set_solver.
Qed.

Lemma delete_car_fault req user w :
  store_ok env CarFindOne = false →
  delete_car env req user w
  = (res 500 (JsonError "Error deleting car"), record (EvStore CarFindOne) w).
Proof.
  intros H. unfold delete_car, try_catch, bind at 1.
  by rewrite (Car_findOne_fault _ _ _ _ H).
Qed.

(** A write that is not answered with its success status wrote
    nothing: the car collection is as it was. *)
Theorem failure_keeps_cars req user w :
  (status (create_car env req user w).1 ≠ 201 →
   cars (create_car env req user w).2 = cars w) ∧
  (status (update_car env req user w).1 ≠ 200 →
   cars (update_car env req user w).2 = cars w) ∧
  (status (delete_car env req user w).1 ≠ 200 →
   cars (delete_car env req user w).2 = cars w).
Proof.
  split; [|split].
  - unfold create_car, Car_save. unfold_async.
    destruct (store_ok env CarSave); simpl; [|done].
    by destruct (cars w !! new_id env).
  - destruct (store_ok env CarFindOne) eqn:H1;
      [|by rewrite (update_car_fault env req user w H1)].
    destruct (owned (req_params_id req) (user_id user) (cars w)) as [car|] eqn:Hcar;
      [|by rewrite (update_car_missing env req user w H1 Hcar)].
    rewrite (update_car_found env req user w car H1 Hcar).
    destruct (reconcile _ _) as [v|e]; [|done].
    destruct (cast_images env v); [|done].
    by destruct (store_ok env CarFindOneAndUpdate).
  - destruct (store_ok env CarFindOne) eqn:H1;
      [|by rewrite (delete_car_fault req user w H1)].
    destruct (owned (req_params_id req) (user_id user) (cars w)) as [car|] eqn:Hcar;
      [|by rewrite (delete_car_missing env req user w H1 Hcar)].
    destruct (destroy_images_cases env (car_images car) 0)
      as [Hall|(pre & u & post & Himgs & Hpre & Hfail)].
    + rewrite (delete_car_resolved env req user w car H1 Hcar Hall). simpl.
      by destruct (store_ok env CarFindOneAndDelete).
    + by rewrite (delete_car_rejected env req user w car pre u post
                    H1 Hcar Himgs Hpre Hfail).
Qed.

(** The list endpoint.  When the store answers, the answer is 200 and
    holds exactly the records of the collection whose [user] is the
    caller, nothing of anyone else; when it does not, the answer is 500.
    Either way the world only gains the logged call. *)
Theorem list_cars_owned req user w :
  (list_cars env req user w).2 = record (EvStore CarFind) w ∧
  (store_ok env CarFind = false →
   (list_cars env req user w).1 = res 500 (JsonError "Error fetching cars")) ∧
  (store_ok env CarFind = true →
   ∃ found,
     (list_cars env req user w).1 = res 200 (JsonCars found) ∧
     ∀ car, car ∈ found ↔
       car_user car = user_id user ∧ ∃ id, cars w !! id = Some car).
Proof.
  unfold list_cars, Car_find. unfold_async.
  destruct (store_ok env CarFind); simpl.
  - split; [done|]. split; [done|]. intros _. eexists. split; [done|].
    intros car. rewrite list_elem_of_filter, list_elem_of_fmap.
    split.
    + intros [Hu ([id c] & -> & Hin%elem_of_map_to_list)]. eauto.
    + intros [Hu [id Hid]]. split; [done|]. exists (id, car). split; [done|].
      by apply elem_of_map_to_list.
  - split; [done|]. split; [done|]. done.
Qed.

(** A get is one lookup and nothing else: whatever its outcome, the
    world only gains the logged call.  A failed lookup is answered 500;
    when the store answers, the owner of the record under the id gets 200
    with that record, and an id the collection does not hold gets 404. *)
Theorem get_car_answers req user w :
  (get_car env req user w).2 = record (EvStore CarFindOne) w ∧
  (store_ok env CarFindOne = false →
   (get_car env req user w).1 = res 500 (JsonError "Error fetching car")) ∧
  (store_ok env CarFindOne = true →
   (∀ car, cars w !! req_params_id req = Some car →
           car_user car = user_id user →
           (get_car env req user w).1 = res 200 (JsonCar car)) ∧
   (cars w !! req_params_id req = None →
    (get_car env req user w).1 = not_found)).
Proof.
  destruct (store_ok env CarFindOne) eqn:H1.
  - rewrite (get_car_found env req user w H1). simpl.
    split; [done|]. split; [done|]. intros _. split.
    + intros car Hcar Hu. unfold owned. rewrite Hcar. by case_decide.
    + intros Hnone. by rewrite (owned_absent _ _ _ Hnone).
  - unfold get_car, Car_findOne. unfold_async. rewrite H1. simpl.
    split; [done|]. split; [done|]. done.
Qed.

(** A delete that goes through.  With the store answering and every
    deletion request resolving, the answer is 200, one request was sent
    per image, the record is gone, and the same request again, like a get
    of the same id, is answered 404; the repeated delete sends no
    deletion request. *)
Theorem delete_then_gone req user w car :
  store_ok env CarFindOne = true →
  store_ok env CarFindOneAndDelete = true →
  owned (req_params_id req) (user_id user) (cars w) = Some car →
  all_resolve env 0 (car_images car) →
  let w' := (delete_car env req user w).2 in
  (delete_car env req user w).1 = res 200 (JsonMessage "Car deleted successfully") ∧
  log w' = log w ++ EvStore CarFindOne :: destroy_events (car_images car)
             ++ [EvStore CarFindOneAndDelete] ∧
  cars w' = delete (req_params_id req) (cars w) ∧
  get_car env req user w' = (not_found, record (EvStore CarFindOne) w') ∧
  delete_car env req user w' = (not_found, record (EvStore CarFindOne) w').
Proof.
  intros H1 H2 Hcar Hall w'. subst w'.
  rewrite (delete_car_resolved env req user w car H1 Hcar Hall), H2. simpl.
  split; [done|]. split; [done|]. split; [done|].
  assert (Hgone : owned (req_params_id req) (user_id user)
            (delete (req_params_id req) (cars w)) = None).
  { apply owned_absent. apply lookup_delete_eq. }
  split.
  - rewrite (get_car_found env req user _ H1). simpl. by rewrite Hgone.
  - by apply delete_car_missing.
Qed.

(** A delete whose last step fails.  When every deletion request
    resolved and the collection then refuses to remove the record, the
    answer is 500 and the record is still there with its image list,
    although a deletion request was sent and resolved for each image. *)
Theorem delete_removal_fault req user w car :
  store_ok env CarFindOne = true →
  store_ok env CarFindOneAndDelete = false →
  owned (req_params_id req) (user_id user) (cars w) = Some car →
  all_resolve env 0 (car_images car) →
  delete_car env req user w
  = (res 500 (JsonError "Error deleting car"),
     extend (EvStore CarFindOne :: destroy_events (car_images car)
             ++ [EvStore CarFindOneAndDelete]) w) ∧
  cars (delete_car env req user w).2 !! req_params_id req = Some car.
Proof.
  intros H1 H2 Hcar Hall.
  rewrite (delete_car_resolved env req user w car H1 Hcar Hall), H2. simpl.
  split; [done|]. by apply owned_lookup in Hcar as [? _].
Qed.

(** Create, then get.  A create answered 201 put the record under the
    new id: a get of that id by the creator returns the body the create
    returned, and a get by anyone else is answered 404. *)
Theorem create_then_get req user w req' :
  status (create_car env req user w).1 = 201 →
  store_ok env CarFindOne = true →
  req_params_id req' = new_id env →
  let w' := (create_car env req user w).2 in
  (get_car env req' user w').1 = res 200 (json (create_car env req user w).1) ∧
  ∀ other, user_id other ≠ user_id user →
    (get_car env req' other w').1 = not_found.
Proof.
  intros Hst H1 Hid w'. subst w'.
  apply create_car_status in Hst as [Hs Hfresh].
  rewrite (create_car_saved env req user w Hs Hfresh). cbv zeta. simpl.
  split.
  - rewrite (get_car_found env req' user _ H1). simpl.
    unfold owned. rewrite Hid, lookup_insert_eq. simpl. by case_decide.
  - intros other Hne. rewrite (get_car_found env req' other _ H1). simpl.
    unfold owned. rewrite Hid, lookup_insert_eq. simpl. by case_decide.
Qed.

Lemma apply_update_twice u images car :
  apply_update u images (apply_update u images car) = apply_update u images car.
Proof.
  unfold apply_update. simpl. f_equal.
  - by destruct (upd_title u).
  - by destruct (upd_description u).
  - by destruct (upd_tags u).
Qed.

Lemma owned_insert id uid m car :
  car_user car = uid → owned id uid (<[id := car]> m) = Some car.
Proof. intros Hu. unfold owned. rewrite lookup_insert_eq. by case_decide. Qed.

(** Update, then get or update again.  After an update answered 200,
    a get of the same id by the same caller returns the body the update
    returned; and the same update sent once more, when it carries no
    uploaded file, gets the same answer and leaves the collection as the
    first did.  (With files, sending it again uploads them again, under
    new URLs: that is another request.) *)
Theorem update_then_get_and_again req user w :
  status (update_car env req user w).1 = 200 →
  let w' := (update_car env req user w).2 in
  (get_car env req user w').1 = (update_car env req user w).1 ∧
  (uploaded_urls req = [] →
   (update_car env req user w').1 = (update_car env req user w).1 ∧
   cars (update_car env req user w').2 = cars w').
Proof.
  intros Hst w'. subst w'.
  destruct (store_ok env CarFindOne) eqn:H1;
    [|by rewrite (update_car_fault env req user w H1) in Hst].
  destruct (owned (req_params_id req) (user_id user) (cars w)) as [car|] eqn:Hcar;
    [|by rewrite (update_car_missing env req user w H1 Hcar) in Hst].
  rewrite (update_car_found env req user w car H1 Hcar) in Hst |- *.
  destruct (reconcile _ _) as [v|e] eqn:Hrec; [|done].
  destruct (cast_images env v) as [images|] eqn:Hcast; [|done].
  destruct (store_ok env CarFindOneAndUpdate) eqn:H2; [|done].
  cbv zeta. set (car' := apply_update (update_of req v) images car).
  set (w1 := set_cars _ _). cbn [fst snd].
  assert (Hown : owned (req_params_id req) (user_id user) (cars w1) = Some car').
  { apply owned_insert. subst car'. simpl. by apply owned_lookup in Hcar as [_ ?]. }
  split.
  - rewrite (get_car_found env req user w1 H1). cbn [fst]. by rewrite Hown.
  - intros _.
    rewrite (update_car_found env req user w1 car' H1 Hown), Hrec, Hcast, H2.
    cbv zeta. cbn [fst snd]. subst car'. rewrite apply_update_twice.
    split; [done|]. subst w1. simpl. by rewrite insert_insert_eq.
Qed.

(** The database behind the gate.  When [jwt.verify] accepts the
    token and the user lookup fails, the answer is 401 "Invalid token";
    when the payload carries no [id], it is 401 "User not found" once the
    store answers.  The handler runs in neither case. *)
Theorem auth_lookup_fault req w token (next : User → Handler) :
  bearer_token req = Some token → token ≠ EmptyString →
  (∀ sub, jwt_verify env token = Some sub →
     store_ok env UserFindById = false →
     authMiddleware env req next w
     = (unauthorized "Invalid token", record (EvStore UserFindById) w)) ∧
  (jwt_verify env token = Some None →
   store_ok env UserFindById = true →
   authMiddleware env req next w
   = (unauthorized "User not found", record (EvStore UserFindById) w)).
Proof.
  intros Htok Hne. rewrite authMiddleware_steps, Htok.
  destruct token as [|c t]; [done|]. split.
  - intros sub -> H1. simpl. by rewrite H1.
  - intros -> H1. simpl. by rewrite H1.
Qed.

End More.

(** ** The token of a header *)

Lemma prefix_append pat s : String.prefix pat (pat +:+ s) = true.
Proof.
  induction pat as [|c pat IH]; simpl; [by destruct s|].
  by destruct (Ascii.ascii_dec c c).
Qed.

Lemma drop_append pat s : JsString.drop (String.length pat) (pat +:+ s) = s.
Proof. induction pat as [|c pat IH]; simpl; [by destruct s|done]. Qed.

Lemma replace_unfold pat rep s :
  JsString.replace pat rep s =
  if String.prefix pat s then rep +:+ JsString.drop (String.length pat) s
  else match s with
       | EmptyString => EmptyString
       | String c rest => String c (JsString.replace pat rep rest)
       end.
Proof. by destruct s. Qed.

Lemma replace_at_head pat rep s :
  JsString.replace pat rep (pat +:+ s) = rep +:+ s.
Proof. by rewrite replace_unfold, prefix_append, drop_append. Qed.

Lemma includes_unfold pat s :
  includes pat s =
  String.prefix pat s ||
  match s with
  | EmptyString => false
  | String _ rest => includes pat rest
  end.
Proof. by destruct s. Qed.

Lemma replace_absent pat rep s :
  includes pat s = false → JsString.replace pat rep s = s.
Proof.
  induction s as [|c s IH]; rewrite includes_unfold, replace_unfold;
    intros [Hp Hs]%orb_false_iff; rewrite Hp; [done|].
  by rewrite (IH Hs).
Qed.

Section Tokens.
Context (env : Env).

(** The scheme is optional.  A header that is the bare token, with no
    [Bearer ] in it, is treated like the header with the scheme in front:
    the middleware sees the same token and does the same. *)
Theorem bearer_scheme_optional req req' token next w :
  includes "Bearer " token = false →
  req_authorization req = Some token →
  req_authorization req' = Some ("Bearer " +:+ token) →
  bearer_token req = Some token ∧
  bearer_token req' = Some token ∧
  authMiddleware env req next w = authMiddleware env req' next w.
Proof.
  intros Habs Hreq Hreq'.
  assert (H1 : bearer_token req = Some token).
  { unfold bearer_token. rewrite Hreq.
    change (Some (JsString.replace "Bearer " EmptyString token) = Some token).
    by rewrite replace_absent. }
  assert (H2 : bearer_token req' = Some token).
  { unfold bearer_token. rewrite Hreq'.
    change (Some (JsString.replace "Bearer " EmptyString ("Bearer " +:+ token))
            = Some token).
    by rewrite replace_at_head. }
  split; [done|]. split; [done|].
  by rewrite !authMiddleware_steps, H1, H2.
Qed.

End Tokens.

(** ** The shape of a deletion target *)

Lemma contains_cons c x s :
  JsString.contains c (String x s) = Ascii.eqb c x || JsString.contains c s.
Proof. done. Qed.

Lemma split_pieces sep c s :
  (Ascii.eqb c sep = true ∨ JsString.contains c s = false) →
  ∀ x, x ∈ JsString.split sep s → JsString.contains c x = false.
Proof.
  induction s as [|a s IH]; intros Hc x.
  - simpl. intros ->%list_elem_of_singleton. done.
  - assert (Hs : Ascii.eqb c sep = true ∨ JsString.contains c s = false).
    { destruct Hc as [?|Hc]; [by left|right].
      rewrite contains_cons in Hc. by apply orb_false_iff in Hc as [_ ?]. }
    specialize (IH Hs). simpl.
    destruct (Ascii.eqb a sep) eqn:Ha.
    + intros [->|Hx]%elem_of_cons; [done|by apply IH].
    + assert (Hca : Ascii.eqb c a = false).
      { destruct Hc as [Hc|Hc].
        - apply Ascii.eqb_eq in Hc as ->. by rewrite Ascii.eqb_sym.
        - rewrite contains_cons in Hc. by apply orb_false_iff in Hc as [? _]. }
      destruct (JsString.split sep s) as [|seg segs] eqn:E.
      * intros ->%list_elem_of_singleton. by rewrite contains_cons, Hca.
      * intros [->|Hx]%elem_of_cons.
        -- rewrite contains_cons, Hca. simpl. apply IH. by left.
        -- apply IH. by right.
Qed.

Lemma last_elem_of {A} (l : list A) x : last l = Some x → x ∈ l.
Proof.
  induction l as [|a [|b l] IH]; simpl; [done| |].
  - intros [= ->]. by left.
  - intros H. right. by apply IH.
Qed.

(** Whatever the image URL, the identifier sent to the asset store is
    [cars/] followed by a name with no slash and no dot in it. *)
Theorem image_target_in_cars imageUrl :
  ∃ name,
    image_target imageUrl = "cars/" +:+ name ∧
    JsString.contains "/" name = false ∧
    JsString.contains "." name = false.
Proof.
  unfold image_target, publicId, JsString.pop, JsString.index0, destroy_target.
  destruct (last (JsString.split "/" imageUrl)) as [seg|] eqn:Hlast.
  2:{ apply last_None in Hlast. by apply split_nonempty in Hlast. }
  apply last_elem_of in Hlast.
  assert (Hseg : JsString.contains "/" seg = false).
  { apply (split_pieces "/" "/" imageUrl); [by left|done]. }
  destruct (JsString.split "." seg) as [|name rest] eqn:Hsplit;
    [by apply split_nonempty in Hsplit|].
  exists name. simpl. split; [done|].
  assert (Hin : name ∈ JsString.split "." seg) by (rewrite Hsplit; by left).
  split.
  - apply (split_pieces "." "/" seg); [by right|done].
  - apply (split_pieces "." "." seg); [by left|done].
Qed.

Section Targets.
Context (env : Env).

(** A delete never asks the asset store for anything else: every
    deletion request it adds to the log names [cars/] followed by a name
    with no slash and no dot, whatever URLs the record holds and however
    the delete ends. *)
Theorem delete_targets_stay_in_cars req user w target :
  EvDestroy target ∈ log (delete_car env req user w).2 →
  EvDestroy target ∈ log w ∨
  ∃ name, target = "cars/" +:+ name ∧
          JsString.contains "/" name = false ∧
          JsString.contains "." name = false.
Proof.
  assert (Hev : ∀ images, EvDestroy target ∈ destroy_events images →
            ∃ name, target = "cars/" +:+ name ∧
                    JsString.contains "/" name = false ∧
                    JsString.contains "." name = false).
  { intros images (url & [= ->] & _)%list_elem_of_fmap.
    apply image_target_in_cars. }
  destruct (store_ok env CarFindOne) eqn:H1.
  2:{ rewrite (delete_car_fault env req user w H1). simpl.
      intros [?|[Hx|[]%elem_of_nil]%elem_of_cons]%elem_of_app; [by left|done]. }
  destruct (owned (req_params_id req) (user_id user) (cars w)) as [car|] eqn:Hcar.
  2:{ rewrite (delete_car_missing env req user w H1 Hcar). simpl.
      intros [?|[Hx|[]%elem_of_nil]%elem_of_cons]%elem_of_app; [by left|done]. }
  destruct (destroy_images_cases env (car_images car) 0)
    as [Hall|(pre & u & post & Himgs & Hpre & Hfail)].
  - rewrite (delete_car_resolved env req user w car H1 Hcar Hall). cbv zeta.
    intros Hin. assert (Hin' : EvDestroy target ∈ log w ++
      EvStore CarFindOne :: destroy_events (car_images car)
      ++ [EvStore CarFindOneAndDelete]).
    { by destruct (store_ok env CarFindOneAndDelete). }
    apply elem_of_app in Hin' as [?|Hin']; [by left|].
    apply elem_of_cons in Hin' as [?|Hin']; [done|].
    apply elem_of_app in Hin' as [Hin'|Hin']; [right; by eapply Hev|].
    by apply list_elem_of_singleton in Hin'.
  - rewrite (delete_car_rejected env req user w car pre u post
               H1 Hcar Himgs Hpre Hfail). simpl.
    intros [?|[?|Hin]%elem_of_cons]%elem_of_app; [by left|done|].
    right. by eapply Hev.
Qed.




(** The upload answers 500 or leaves the answer to the handler, so it
    adds no 401 of its own. *)
Lemma upload_array_not_401 fieldname maxCount req next w :
  not_401 (next w).1 →
  not_401 (upload_array env fieldname maxCount req next w).1.
Proof.
  intros Hnext. unfold upload_array.
  destruct (req_files req) as [fs|]; [|done].
  by destruct (_ || _).
Qed.

(** With the upload in place too, a 401 of an endpoint is the answer of
    the gate alone: anything else put behind the gate gives the same
    answer and world. *)
Lemma routes_401_before_handler route req w (next : User → Handler) :
  route ∈ routes env →
  status (route req w).1 = 401 →
  authMiddleware env req next w = route req w.
Proof.
  intros Hroute Hst.
  assert (Hgate : ∀ h : User → Handler,
            (∀ u0 w0, not_401 (h u0 w0).1) →
            status (authMiddleware env req h w).1 = 401 →
            authMiddleware env req next w = authMiddleware env req h w).
  { intros h Hh Hst'.
    destruct (authMiddleware_cases env req w)
      as [(r & w' & _ & Hsame)|(u0 & w' & Hrun)].
    - by rewrite !Hsame.
    - rewrite Hrun in Hst'. by apply Hh in Hst'. }
  unfold routes in Hroute. rewrite !elem_of_cons, elem_of_nil in Hroute.
  destruct Hroute as [->|[->|[->|[->|[->|[]]]]]]; apply Hgate; try done;
    intros u0 w0; try apply upload_array_not_401;
    apply (car_handlers_not_401 env req); unfold car_handlers; set_solver.
Qed.

End Targets.

Section Isolation.
Context (env : Env).

(** No handler run for one identity changes a record of another:
    whatever the request, the files and the outcome of the outside calls,
    a record whose [user] is not the caller is in the collection
    afterwards as it was before. *)
Theorem others_records_untouched req caller w h id car :
  h ∈ car_handlers env req →
  cars w !! id = Some car →
  car_user car ≠ user_id caller →
  cars (h caller w).2 !! id = Some car.
Proof.
  intros Hh Hcar Hne. unfold car_handlers in Hh.
  rewrite !elem_of_cons, elem_of_nil in Hh.
  destruct Hh as [->|[->|[->|[->|[->|[]]]]]].
  - destruct (decide (id = new_id env)) as [->|Hid].
    + destruct (failure_keeps_cars env req caller w) as (Hc & _ & _).
      rewrite Hc; [done|]. intros Hst.
      apply create_car_status in Hst as [_ Hfresh]. congruence.
    + destruct (writes_touch_one_record env req caller w id) as [_ Hc].
      by rewrite Hc.
  - destruct (decide (id = req_params_id req)) as [->|Hid].
    + destruct (store_ok env CarFindOne) eqn:H1.
      * rewrite (update_car_missing env req caller w H1); [done|].
        by apply (owned_other _ _ _ car).
      * by rewrite (update_car_fault env req caller w H1).
    + destruct (writes_touch_one_record env req caller w id) as [Hc _].
      destruct (Hc Hid) as [-> _]. done.
  - destruct (decide (id = req_params_id req)) as [->|Hid].
    + destruct (store_ok env CarFindOne) eqn:H1.
      * rewrite (delete_car_missing env req caller w H1); [done|].
        by apply (owned_other _ _ _ car).
      * by rewrite (delete_car_fault env req caller w H1).
    + destruct (writes_touch_one_record env req caller w id) as [Hc _].
      destruct (Hc Hid) as [_ ->]. done.
  - destruct (list_cars_owned env req caller w) as [-> _]. done.
  - destruct (get_car_answers env req caller w) as [-> _]. done.
Qed.

End Isolation.

(** ** The extra facts at work *)

Lemma routes_keep_users_and_log_witness :
  let req := Scenario.on_car "car1" (Some "Bearer token-alice")
               Scenario.no_body None in
  users (router_delete Scenario.env req Scenario.world).2
  = users Scenario.world ∧
  log Scenario.world `prefix_of`
    log (router_delete Scenario.env req Scenario.world).2.
Proof.
  intros req.
  apply (routes_keep_users_and_log Scenario.env (router_delete Scenario.env)).
  unfold routes. set_solver.
Defined.

Lemma writes_touch_one_record_witness :
  let req := Scenario.on_car "car1" None Scenario.no_body None in
  cars (delete_car Scenario.env req Scenario.alice Scenario.world).2 !! "car7"
  = Some Scenario.roadster ∧
  cars (create_car Scenario.env req Scenario.alice Scenario.world).2 !! "car7"
  = Some Scenario.roadster.
Proof.
  intros req.
  destruct (writes_touch_one_record Scenario.env req Scenario.alice
              Scenario.world "car7") as [Hw Hc].
  destruct Hw as [_ Hd]; [discriminate|].
  split; [by rewrite Hd|]. rewrite Hc; [reflexivity|discriminate].
Defined.

Lemma failure_keeps_cars_witness :
  let req := Scenario.on_car "car1" None (Scenario.edit (Some "[urlA]")) None in
  cars (update_car Scenario.env req Scenario.alice Scenario.world).2
  = cars Scenario.world.
Proof.
  intros req.
  destruct (failure_keeps_cars Scenario.env req Scenario.alice Scenario.world)
    as (_ & Hu & _).
  apply Hu. discriminate.
Defined.

Lemma list_cars_owned_witness :
  let req := Scenario.on_car EmptyString None Scenario.no_body None in
  (∃ found,
     (list_cars Scenario.env req Scenario.alice Scenario.world).1
     = res 200 (JsonCars found) ∧ Scenario.tesla ∈ found) ∧
  (∃ found,
     (list_cars Scenario.env req Scenario.bob Scenario.world).1
     = res 200 (JsonCars found) ∧ Scenario.tesla ∉ found) ∧
  (list_cars Faults.env_store_down req Scenario.alice Scenario.world).1
  = res 500 (JsonError "Error fetching cars").
Proof.
  intros req. split; [|split].
  - destruct (list_cars_owned Scenario.env req Scenario.alice Scenario.world)
      as (_ & _ & Hok).
    destruct (Hok eq_refl) as (found & Hres & Hin).
    exists found. split; [exact Hres|]. apply Hin.
    split; [reflexivity|]. by exists "car1".
  - destruct (list_cars_owned Scenario.env req Scenario.bob Scenario.world)
      as (_ & _ & Hok).
    destruct (Hok eq_refl) as (found & Hres & Hin).
    exists found. split; [exact Hres|]. intros [Hu _]%Hin. discriminate Hu.
  - destruct (list_cars_owned Faults.env_store_down req Scenario.alice
                Scenario.world) as (_ & Hdown & _).
    by apply Hdown.
Defined.

Lemma get_car_answers_witness :
  let req := Scenario.on_car "car1" None Scenario.no_body None in
  (get_car Faults.env_store_down req Scenario.alice Scenario.world).1
  = res 500 (JsonError "Error fetching car") ∧
  (get_car Scenario.env req Scenario.alice Scenario.world).1
  = res 200 (JsonCar Scenario.tesla) ∧
  (get_car Scenario.env (Scenario.on_car "car9" None Scenario.no_body None)
     Scenario.alice Scenario.world).1 = not_found.
Proof.
  intros req. split; [|split].
  - destruct (get_car_answers Faults.env_store_down req Scenario.alice
                Scenario.world) as (_ & Hdown & _).
    by apply Hdown.
  - destruct (get_car_answers Scenario.env req Scenario.alice Scenario.world)
      as (_ & _ & Hok).
    destruct (Hok eq_refl) as [Hfound _]. by apply Hfound.
  - destruct (get_car_answers Scenario.env
                (Scenario.on_car "car9" None Scenario.no_body None)
                Scenario.alice Scenario.world) as (_ & _ & Hok).
    destruct (Hok eq_refl) as [_ Hnone]. by apply Hnone.
Defined.

Lemma delete_then_gone_witness :
  let req := Scenario.on_car "car1" None Scenario.no_body None in
  let w' := (delete_car Scenario.env req Scenario.alice Scenario.world).2 in
  cars w' !! "car1" = None ∧
  (get_car Scenario.env req Scenario.alice w').1 = not_found ∧
  (delete_car Scenario.env req Scenario.alice w').1 = not_found.
Proof.
  intros req w'.
  destruct (delete_then_gone Scenario.env req Scenario.alice Scenario.world
              Scenario.tesla eq_refl eq_refl eq_refl)
    as (_ & _ & Hcars & Hget & Hdel).
  { intros j url _. reflexivity. }
  subst w'. split; [by rewrite Hcars|]. by rewrite Hget, Hdel.
Defined.

Lemma delete_removal_fault_witness :
  let req := Scenario.on_car "car1" None Scenario.no_body None in
  delete_car Faults.env_removal_refused req Scenario.alice Scenario.world
  = (res 500 (JsonError "Error deleting car"),
     extend [EvStore CarFindOne; EvDestroy "cars/front"; EvDestroy "cars/rear";
             EvStore CarFindOneAndDelete] Scenario.world) ∧
  cars (delete_car Faults.env_removal_refused req Scenario.alice
          Scenario.world).2 !! "car1" = Some Scenario.tesla.
Proof.
  intros req.
  apply (delete_removal_fault Faults.env_removal_refused req Scenario.alice
           Scenario.world Scenario.tesla eq_refl eq_refl eq_refl).
  intros j url _. reflexivity.
Defined.

Lemma create_then_get_witness :
  let req := Scenario.on_car EmptyString None (Scenario.edit None)
               (Some [Scenario.upload "side.png" Scenario.url_side]) in
  let req' := Scenario.on_car "car2" None Scenario.no_body None in
  let w' := (create_car Scenario.env req Scenario.alice Scenario.world).2 in
  (get_car Scenario.env req' Scenario.alice w').1
  = res 200 (json (create_car Scenario.env req Scenario.alice Scenario.world).1) ∧
  (get_car Scenario.env req' Scenario.bob w').1 = not_found.
Proof.
  intros req req' w'.
  destruct (create_then_get Scenario.env req Scenario.alice Scenario.world req'
              eq_refl eq_refl eq_refl) as [Hget Hother].
  split; [exact Hget|]. apply Hother. discriminate.
Defined.

Lemma update_then_get_and_again_witness :
  let kept := Some ("[" +:+ JSON.quoted Scenario.url_rear +:+ "]") in
  let req := Scenario.on_car "car1" None (Scenario.edit kept)
               (Some [Scenario.upload "side.png" Scenario.url_side]) in
  let bare := Scenario.on_car "car1" None (Scenario.edit kept) (Some []) in
  let w' := (update_car Scenario.env req Scenario.alice Scenario.world).2 in
  let w'' := (update_car Scenario.env bare Scenario.alice Scenario.world).2 in
  (get_car Scenario.env req Scenario.alice w').1
  = (update_car Scenario.env req Scenario.alice Scenario.world).1 ∧
  (update_car Scenario.env bare Scenario.alice w'').1
  = (update_car Scenario.env bare Scenario.alice Scenario.world).1 ∧
  cars (update_car Scenario.env bare Scenario.alice w'').2 = cars w''.
Proof.
  intros kept req bare w' w''.
  destruct (update_then_get_and_again Scenario.env req Scenario.alice
              Scenario.world eq_refl) as [Hget _].
  destruct (update_then_get_and_again Scenario.env bare Scenario.alice
              Scenario.world eq_refl) as [_ Hagain].
  split; [exact Hget|]. exact (Hagain eq_refl).
Defined.

Lemma auth_lookup_fault_witness :
  let req := Scenario.on_car "car1" (Some "Bearer token-alice")
               Scenario.no_body None in
  router_get Faults.env_store_down req Scenario.world
  = (unauthorized "Invalid token", record (EvStore UserFindById) Scenario.world) ∧
  router_get Faults.env_payload_without_id req Scenario.world
  = (unauthorized "User not found", record (EvStore UserFindById) Scenario.world).
Proof.
  intros req. unfold router_get. split.
  - destruct (auth_lookup_fault Faults.env_store_down req Scenario.world
                "token-alice" (get_car Faults.env_store_down req) eq_refl)
      as [Hdown _]; [discriminate|].
    by apply (Hdown (Some "alice")).
  - destruct (auth_lookup_fault Faults.env_payload_without_id req Scenario.world
                "token-alice" (get_car Faults.env_payload_without_id req) eq_refl)
      as [_ Hnone]; [discriminate|].
    by apply Hnone.
Defined.

Lemma bearer_scheme_optional_witness :
  let bare := Scenario.on_car "car1" (Some "token-alice") Scenario.no_body None in
  let full := Scenario.on_car "car1" (Some "Bearer token-alice")
                Scenario.no_body None in
  router_get Scenario.env bare Scenario.world
  = router_get Scenario.env full Scenario.world ∧
  (router_get Scenario.env bare Scenario.world).1
  = res 200 (JsonCar Scenario.tesla).
Proof.
  intros bare full. unfold router_get.
  destruct (bearer_scheme_optional Scenario.env bare full "token-alice"
              (get_car Scenario.env bare) Scenario.world eq_refl eq_refl eq_refl)
    as (_ & _ & Hsame).
  split; [exact Hsame|]. by vm_compute.
Defined.

Lemma delete_targets_stay_in_cars_witness :
  ∃ name, "cars/front" = "cars/" +:+ name ∧
          JsString.contains "/" name = false ∧
          JsString.contains "." name = false.
Proof.
  destruct (delete_targets_stay_in_cars Scenario.env
              (Scenario.on_car "car7" None Scenario.no_body None)
              Scenario.alice Scenario.world "cars/front") as [Hold|Hnew].
  - vm_compute. right. left.
  - by apply elem_of_nil in Hold.
  - exact Hnew.
Defined.

Lemma image_target_plain_witness :
  image_target Scenario.url_rear = "cars/rear".
Proof.
  apply (image_target_plain
           "https://res.cloudinary.com/demo/image/upload/v1712/cars"
           "rear" "jpg"); reflexivity.
Defined.


Lemma others_records_untouched_witness :
  let req := Scenario.on_car "car1" None (Scenario.edit (Some "[]")) None in
  cars (update_car Scenario.env req Scenario.bob Scenario.world).2 !! "car1"
  = Some Scenario.tesla ∧
  cars (delete_car Scenario.env req Scenario.bob Scenario.world).2 !! "car1"
  = Some Scenario.tesla.
Proof.
  intros req. split.
  - apply (others_records_untouched Scenario.env req Scenario.bob Scenario.world
             (update_car Scenario.env req));
      [unfold car_handlers; set_solver|reflexivity|discriminate].
  - apply (others_records_untouched Scenario.env req Scenario.bob Scenario.world
             (delete_car Scenario.env req));
      [unfold car_handlers; set_solver|reflexivity|discriminate].
Defined.

